(** * Socket_PC: UDP fragmentation and reassembly of binary frames

    A shallow embedding of the sender ([functions.py]: [send_file],
    the polling pass of [monitor_folder_and_send]) and of the receiver
    ([functions_client.py]: [UDPReceiverProtocol.datagram_received] and one
    iteration of [cleanup_loop]), followed by the properties of the
    fragmentation / reassembly engine.

    Modelling conventions.
    - Python [bytes] are [list byte]; Python [int] is [Z].
    - A raised exception is a value [Raise e]; whatever was mutated or put
      on the wire before the exception stays in the result.
    - [self.reassembly_dict] is a [gmap Z frame_info].  The per-frame dict
      [frame_info] is mutated through an alias in the source; here the
      updated record is written back under its key.
    - [loop.time()] readings and [frame_timeout] are exact numbers ([Z], in
      clock ticks): subtraction and comparison are those of the source, the
      rounding of binary floating point is not represented.
    - [await asyncio.sleep(..)] only spends time; it leaves no trace here. *)

From Stdlib Require Import ZArith Lia.
From Stdlib.Strings Require Import Byte Ascii.
From stdpp Require Import base list gmap strings fin_maps pretty.

Local Open Scope Z_scope.

(** ** Exceptions and results *)

Inductive exn : Type :=
  | OverflowError
  | ZeroDivisionError
  | IndexError
  | TypeError.

Inductive outcome (A : Type) : Type :=
  | Return (a : A)
  | Raise (e : exn).
Arguments Return {A} a.
Arguments Raise {A} e.

(** ** Bytes and big-endian integers *)

Abbreviation bytes := (list byte).

Definition byte_to_Z (b : byte) : Z := Z.of_N (Byte.to_N b).

Definition byte_of_Z (n : Z) : byte :=
  match Byte.of_N (Z.to_N (n mod 256)) with
  | Some b => b
  | None => x00
  end.

(** The [len] base-256 digits of [n], most significant first. *)
Fixpoint be_digits (len : nat) (n : Z) : bytes :=
  match len with
  | O => []
  | S k => be_digits k (n / 256) ++ [byte_of_Z (n mod 256)]
  end.

(** [n.to_bytes(len, 'big', signed=False)]: [OverflowError] when [n] is
    negative or needs more than [len] bytes. *)
Definition to_bytes (len : nat) (n : Z) : outcome bytes :=
  if bool_decide (0 ≤ n < 256 ^ Z.of_nat len)
  then Return (be_digits len n)
  else Raise OverflowError.

(** [int.from_bytes(b, "big", signed=False)]. *)
Definition from_bytes (b : bytes) : Z :=
  foldl (λ acc x, acc * 256 + byte_to_Z x) 0 b.

(** [l[start:stop]] for [0 <= start] and [0 <= stop] (the only slices the
    program takes): the elements at positions [start .. min(stop, len)-1]. *)
Definition slice {A} (l : list A) (start stop : Z) : list A :=
  take (Z.to_nat stop - Z.to_nat start)%nat (drop (Z.to_nat start) l).

(** [range(n)]. *)
Definition range (n : Z) : list Z := Z.of_nat <$> seq 0 (Z.to_nat n).

(** ** The sender: functions.py *)

(** [math.ceil(frame_size / chunk_size)].  The source divides in floating
    point and rounds up; for a [frame_size] below [2^53] (any file that fits
    in memory) the correctly rounded quotient has the same ceiling as the
    exact one, which is what is computed here.  [chunk_size = 0] raises
    [ZeroDivisionError]. *)
Definition ceil_div (frame_size chunk_size : Z) : outcome Z :=
  if bool_decide (chunk_size = 0) then Raise ZeroDivisionError
  else Return (- ((- frame_size) / chunk_size)).

Inductive tx_msg : Type :=
  | ErrorReadingFile (filepath : string)
  | InfoSendingFile (filepath : string) (frame_size frame_counter : Z)
  | InfoFinishedSending (filepath : string) (frame_counter : Z).

(** What one call has done: its result (the returned frame counter, or the
    exception that left it), the datagrams handed to [transport.sendto] in
    order, and the log records in order. *)
Record tx_run : Type := TxRun {
  tx_result : outcome Z;
  tx_sent : list bytes;
  tx_log : list tx_msg
}.

(** The body of [for chunk_idx in range(total_chunks)], on the list of the
    indices still to be sent. *)
Fixpoint send_chunks (file_data frame_counter_bytes total_chunks_bytes : bytes)
    (chunk_size : Z) (idxs : list Z) : outcome unit * list bytes :=
  match idxs with
  | [] => (Return tt, [])
  | chunk_idx :: rest =>
      let frame_size := Z.of_nat (length file_data) in
      let start := chunk_idx * chunk_size in
      let end_ := Z.min (start + chunk_size) frame_size in
      let chunk_data := slice file_data start end_ in
      match to_bytes 2 chunk_idx with
      | Raise e => (Raise e, [])
      | Return chunk_idx_bytes =>
          let payload :=
            frame_counter_bytes ++ total_chunks_bytes ++ chunk_idx_bytes ++ chunk_data in
          let '(r, sent) :=
            send_chunks file_data frame_counter_bytes total_chunks_bytes chunk_size rest in
          (r, payload :: sent)
      end
  end.

(** [send_file(filepath, transport, target_addr, frame_counter, chunk_size, fps)].
    The file system is a finite map from paths to contents; a path that is
    not in it cannot be read. *)
Definition send_file (fs : gmap string bytes) (filepath : string)
    (frame_counter chunk_size fps : Z) : tx_run :=
  match fs !! filepath with
  | None => TxRun (Return frame_counter) [] [ErrorReadingFile filepath]
  | Some file_data =>
      let frame_size := Z.of_nat (length file_data) in
      let log := [InfoSendingFile filepath frame_size frame_counter] in
      match to_bytes 4 frame_counter with
      | Raise e => TxRun (Raise e) [] log
      | Return frame_counter_bytes =>
      match ceil_div frame_size chunk_size with
      | Raise e => TxRun (Raise e) [] log
      | Return total_chunks =>
      match to_bytes 2 total_chunks with
      | Raise e => TxRun (Raise e) [] log
      | Return total_chunks_bytes =>
      if bool_decide (fps = 0) then TxRun (Raise ZeroDivisionError) [] log
      else
        match send_chunks file_data frame_counter_bytes total_chunks_bytes
                chunk_size (range total_chunks) with
        | (Raise e, sent) => TxRun (Raise e) sent log
        | (Return _, sent) =>
            TxRun (Return ((frame_counter + 1) mod 2 ^ 32)) sent
              (log ++ [InfoFinishedSending filepath frame_counter])
        end
      end end end
  end.

(** One pass of the [for filepath in ply_files] loop of
    [monitor_folder_and_send]: the state is the set of files already sent
    and the frame counter.  An exception leaving [send_file] leaves the
    loop, and with it the coroutine, as well: nothing catches it. *)
Record monitor_state : Type := MonitorState {
  sent_files : gset string;
  frame_counter : Z
}.

Fixpoint send_new_files (fs : gmap string bytes) (ply_files : list string)
    (st : monitor_state) (chunk_size fps : Z)
    : outcome monitor_state * list bytes :=
  match ply_files with
  | [] => (Return st, [])
  | filepath :: rest =>
      if bool_decide (filepath ∈ sent_files st)
      then send_new_files fs rest st chunk_size fps
      else
        let run := send_file fs filepath (frame_counter st) chunk_size fps in
        match tx_result run with
        | Raise e => (Raise e, tx_sent run)
        | Return next =>
            let st' := MonitorState ({[filepath]} ∪ sent_files st) next in
            let '(r, sent) := send_new_files fs rest st' chunk_size fps in
            (r, tx_sent run ++ sent)
        end
  end.

(** ** The receiver: functions_client.py *)

(** The value stored under a frame counter in [self.reassembly_dict]: the
    dict with the keys ["total_chunks"], ["chunks"], ["received_count"] and
    ["last_update"].  A slot of ["chunks"] holds [None] or a payload. *)
Record frame_info : Type := FrameInfo {
  total_chunks : Z;
  chunks : list (option bytes);
  received_count : Z;
  last_update : Z
}.

Inductive rx_msg : Type :=
  | WarnPacketTooSmall (len : nat)
  | WarnInvalidHeader (chunk_idx total : Z)
  | WarnTotalChunksMismatch (frame_counter : Z)
  | WarnDiscarding (frame_counter received total : Z).

(** What one call of [datagram_received] has done: the table it leaves, the
    frame handed to [save_frame] through [loop.create_task] (if any), or the
    exception that left the call, and the log records. *)
Record rx_run : Type := RxRun {
  rx_dict : gmap Z frame_info;
  rx_result : outcome (option (Z * bytes));
  rx_log : list rx_msg
}.

(** [[None] * total]. *)
Definition empty_slots (total : Z) : list (option bytes) :=
  replicate (Z.to_nat total) None.

(** [b"".join(chunks)]: [TypeError] when a slot still holds [None]. *)
Fixpoint join (slots : list (option bytes)) : outcome bytes :=
  match slots with
  | [] => Return []
  | None :: _ => Raise TypeError
  | Some c :: rest =>
      match join rest with
      | Return b => Return (c ++ b)
      | Raise e => Raise e
      end
  end.

(** The block "Update total_chunks if needed". *)
Definition reset_on_mismatch (total : Z) (info : frame_info) : frame_info :=
  if bool_decide (total_chunks info ≠ total)
  then FrameInfo total (empty_slots total) 0 (last_update info)
  else info.

(** The block "Save the chunk if not already present", once the slot has
    been read: [slot] is [frame_info["chunks"][chunk_idx]]. *)
Definition save_chunk (now : Z) (chunk_idx : nat) (chunk_data : bytes)
    (slot : option bytes) (info : frame_info) : frame_info :=
  match slot with
  | None =>
      FrameInfo (total_chunks info)
        (<[chunk_idx := Some chunk_data]> (chunks info))
        (received_count info + 1) now
  | Some _ => info
  end.

(** Lines 45-77 of [datagram_received]: what is done with a packet whose
    header passed the two checks.  [now] is the reading of
    [self.loop.time()]. *)
Definition reassemble (now frame_counter total chunk_idx : Z)
    (chunk_data : bytes) (d : gmap Z frame_info) : rx_run :=
  let found :=
    match d !! frame_counter with
    | None => FrameInfo total (empty_slots total) 0 now
    | Some info => info
    end in
  let log :=
    if bool_decide (total_chunks found ≠ total)
    then [WarnTotalChunksMismatch frame_counter] else [] in
  let info1 := reset_on_mismatch total found in
  match chunks info1 !! Z.to_nat chunk_idx with
  | None => RxRun (<[frame_counter := info1]> d) (Raise IndexError) log
  | Some slot =>
      let info2 := save_chunk now (Z.to_nat chunk_idx) chunk_data slot info1 in
      if bool_decide (received_count info2 = total_chunks info2)
      then
        match join (chunks info2) with
        | Raise e => RxRun (<[frame_counter := info2]> d) (Raise e) log
        | Return complete_frame =>
            RxRun (delete frame_counter d)
              (Return (Some (frame_counter, complete_frame))) log
        end
      else RxRun (<[frame_counter := info2]> d) (Return None) log
  end.

(** [datagram_received(data, addr)]: lines 28-43, the length check, the
    parsing of the header and the check of its fields, then [reassemble]. *)
Definition datagram_received (now : Z) (data : bytes) (d : gmap Z frame_info)
    : rx_run :=
  if bool_decide (length data < 8)%nat
  then RxRun d (Return None) [WarnPacketTooSmall (length data)]
  else
    let frame_counter := from_bytes (slice data 0 4) in
    let total := from_bytes (slice data 4 6) in
    let chunk_idx := from_bytes (slice data 6 8) in
    let chunk_data := drop 8 data in
    if bool_decide (total ≤ 0 ∨ chunk_idx >= total)
    then RxRun d (Return None) [WarnInvalidHeader chunk_idx total]
    else reassemble now frame_counter total chunk_idx chunk_data d.

(** The test [now - info["last_update"] > self.frame_timeout]. *)
Definition stale (now frame_timeout : Z) (info : frame_info) : bool :=
  bool_decide (now - last_update info > frame_timeout).

(** The items of the table that pass the test, and their keys: the list
    [to_remove] at the end of the first loop of [cleanup_loop].  The items
    are walked in the order of [map_to_list]; the order in which a Python
    dict yields them only shows in the order of the warnings. *)
Definition stale_items (now frame_timeout : Z) (d : gmap Z frame_info)
    : list (Z * frame_info) :=
  filter (λ kv, stale now frame_timeout kv.2 = true) (map_to_list d).

Definition to_remove (now frame_timeout : Z) (d : gmap Z frame_info) : list Z :=
  (stale_items now frame_timeout d).*1.

(** One iteration of the [while True] of [cleanup_loop], at the reading
    [now] of the clock.  First pass: the keys to remove and the warnings,
    read off the table as it stands.  Second pass: the deletions. *)
Definition cleanup_tick (now frame_timeout : Z) (d : gmap Z frame_info)
    : gmap Z frame_info * list rx_msg :=
  let log :=
    (λ kv, WarnDiscarding kv.1 (received_count kv.2) (total_chunks kv.2))
      <$> stale_items now frame_timeout d in
  (foldl (λ acc fc, delete fc acc) d (to_remove now frame_timeout d), log).

(** ** Runs of the receiver *)

(** The tables the receiver can hold: it starts from [{}], and from then on
    only [datagram_received] and the sweep touch the table.  Both run on
    the event loop of one thread: a call of [datagram_received] and the
    stretch of [cleanup_loop] between two [await]s are never interleaved. *)
Inductive reachable (frame_timeout : Z) : gmap Z frame_info → Prop :=
  | reachable_init : reachable frame_timeout ∅
  | reachable_datagram now data d :
      reachable frame_timeout d →
      reachable frame_timeout (rx_dict (datagram_received now data d))
  | reachable_sweep now d :
      reachable frame_timeout d →
      reachable frame_timeout (cleanup_tick now frame_timeout d).1.

(** Delivering a sequence of datagrams, each with the clock reading of its
    arrival: the table at the end, the frames handed to [save_frame] in
    order, and whether a call raised. *)
Fixpoint deliver (arrivals : list (Z * bytes)) (d : gmap Z frame_info)
    : gmap Z frame_info * list (Z * bytes) * list exn :=
  match arrivals with
  | [] => (d, [], [])
  | (now, data) :: rest =>
      let run := datagram_received now data d in
      let '(d', frames, raised) := deliver rest (rx_dict run) in
      match rx_result run with
      | Return None => (d', frames, raised)
      | Return (Some frame) => (d', frame :: frames, raised)
      | Raise e => (d', frames, e :: raised)
      end
  end.

(** ** Vocabulary of the statements *)

(** The eight header bytes the sender puts in front of a chunk. *)
Definition header (frame_counter total chunk_idx : Z) : bytes :=
  be_digits 4 frame_counter ++ be_digits 2 total ++ be_digits 2 chunk_idx.

(** The slice [file_data[start:end]] the sender takes for [chunk_idx]. *)
Definition chunk_of (file_data : bytes) (chunk_size chunk_idx : Z) : bytes :=
  slice file_data (chunk_idx * chunk_size)
    (Z.min (chunk_idx * chunk_size + chunk_size) (Z.of_nat (length file_data))).

(** The datagram of chunk [chunk_idx], and the datagrams of a frame in
    increasing index order. *)
Definition fragment (file_data : bytes) (frame_counter chunk_size total chunk_idx : Z)
    : bytes :=
  header frame_counter total chunk_idx ++ chunk_of file_data chunk_size chunk_idx.

Definition fragments (file_data : bytes) (frame_counter chunk_size total : Z)
    : list bytes :=
  fragment file_data frame_counter chunk_size total <$> range total.

(** The header fields [datagram_received] reads off a datagram. *)
Definition frame_counter_of (data : bytes) : Z := from_bytes (slice data 0 4).
Definition total_chunks_of (data : bytes) : Z := from_bytes (slice data 4 6).
Definition chunk_idx_of (data : bytes) : Z := from_bytes (slice data 6 8).

(** The number of slots that hold a payload. *)
Fixpoint filled (slots : list (option bytes)) : Z :=
  match slots with
  | [] => 0
  | None :: rest => filled rest
  | Some _ :: rest => 1 + filled rest
  end.

(** The entry a first chunk leaves behind when the frame has more chunks
    than this one: every slot empty but the one of the chunk. *)
Definition first_chunk_info (now total chunk_idx : Z) (chunk_data : bytes)
    : frame_info :=
  FrameInfo total (<[Z.to_nat chunk_idx := Some chunk_data]> (empty_slots total)) 1 now.

(** What [reassemble] does with a chunk that finds no usable entry for its
    frame counter (none at all, or one that is reset): a frame of one chunk
    is complete at once, otherwise the entry of a first chunk is stored. *)
Definition started (now frame_counter total chunk_idx : Z) (chunk_data : bytes)
    (d : gmap Z frame_info) (log : list rx_msg) : rx_run :=
  if bool_decide (total = 1)
  then RxRun (delete frame_counter d) (Return (Some (frame_counter, chunk_data))) log
  else RxRun (<[frame_counter := first_chunk_info now total chunk_idx chunk_data]> d)
         (Return None) log.

(** The invariant of an entry of the table: one slot per chunk, the count
    is the number of filled slots, and the frame is not complete yet (a
    complete frame leaves the table in the call that completes it). *)
Record frame_ok (info : frame_info) : Prop := FrameOk {
  ok_length : Z.of_nat (length (chunks info)) = total_chunks info;
  ok_count : received_count info = filled (chunks info);
  ok_open : received_count info < total_chunks info
}.

Definition table_ok (d : gmap Z frame_info) : Prop :=
  map_Forall (λ _ info, frame_ok info) d.

(** An entry that holds exactly the chunks of [file_data] whose indices are
    in [got], each in its slot, and nothing else. *)
Definition collected (file_data : bytes) (chunk_size total : Z) (got : list Z)
    (info : frame_info) : Prop :=
  total_chunks info = total ∧
  length (chunks info) = Z.to_nat total ∧
  received_count info = Z.of_nat (length got) ∧
  ∀ i, 0 ≤ i < total →
    chunks info !! Z.to_nat i =
      Some (if decide (i ∈ got) then Some (chunk_of file_data chunk_size i) else None).

(** ** The polling loop *)


(** The files of a listing that a pass has to send and can read. *)
Definition new_readable (fs : gmap string bytes) (sent : gset string)
    (ply_files : list string) : list string :=
  filter (λ f, (f ∉ sent) ∧ is_Some (fs !! f)) ply_files.

(** The arrivals that carry a full header with the frame counter [k], in
    the order they come in. *)
Definition arrivals_of (k : Z) (arrivals : list (Z * bytes)) : list (Z * bytes) :=
  filter (λ a, (8 ≤ length a.2)%nat ∧ frame_counter_of a.2 = k) arrivals.

(** The frames handed over under the frame counter [k]. *)
Definition frames_of (k : Z) (frames : list (Z * bytes)) : list (Z * bytes) :=
  filter (λ frame, frame.1 = k) frames.

(** ** Saving a completed frame *)

(** [s.endswith(c)] for a single character. *)
Fixpoint ends_with (c : Ascii.ascii) (s : string) : bool :=
  match s with
  | EmptyString => false
  | String c' EmptyString => bool_decide (c' = c)
  | String _ s' => ends_with c s'
  end.

(** [os.path.join(a, b)] for two components, as [posixpath] computes it. *)
Definition path_join (a b : string) : string :=
  match b with
  | String "/"%char _ => b
  | _ =>
      if bool_decide (a = "") || ends_with "/"%char a then a +:+ b
      else a +:+ "/" +:+ b
  end.

(** The path [save_frame] writes to: [seconds] is [int(time.time())] at the
    time the task runs, and an f-string prints an integer in decimal, with
    a minus sign when it is negative. *)
Definition save_path (save_folder : string) (frame_counter seconds : Z) : string :=
  path_join save_folder
    ("frame_" +:+ pretty frame_counter +:+ "_" +:+ pretty seconds +:+ ".ply").

Inductive sink_msg : Type :=
  | InfoSaved (frame_counter : Z) (filepath : string)
  | ErrorSaving (frame_counter : Z) (filepath : string).

(** [save_frame(frame_counter, data)] on the files of the receiving side.
    [can_open] tells for which paths [open(filepath, "wb")] goes through;
    when it does not, the exception is caught and logged, and the files are
    as they were.  A write that fails half way is not represented. *)
Definition save_frame (save_folder : string) (can_open : string → bool)
    (seconds frame_counter : Z) (data : bytes) (files : gmap string bytes)
    : gmap string bytes * sink_msg :=
  let filepath := save_path save_folder frame_counter seconds in
  if can_open filepath
  then (<[filepath := data]> files, InfoSaved frame_counter filepath)
  else (files, ErrorSaving frame_counter filepath).

(** The character [c] occurs in [s]. *)
Fixpoint has_char (c : Ascii.ascii) (s : string) : Prop :=
  match s with
  | EmptyString => False
  | String c' s' => c' = c ∨ has_char c s'
  end.

(** The characters of a printed integer: decimal digits and the sign. *)
Definition decimal_char (c : ascii) : Prop :=
  c ∈ ["0"; "1"; "2"; "3"; "4"; "5"; "6"; "7"; "8"; "9"; "-"]%char.

(** * Properties *)

(** ** Bytes and headers *)

Lemma byte_to_Z_range b : 0 ≤ byte_to_Z b < 256.
Proof.
  unfold byte_to_Z. pose proof (Byte.to_N_bounded b) as Hb. lia.
Qed.

Lemma byte_to_of_Z n : byte_to_Z (byte_of_Z n) = n mod 256.
Proof.
  unfold byte_of_Z, byte_to_Z.
  pose proof (Z.mod_pos_bound n 256 ltac:(lia)) as Hn.
  destruct (Byte.of_N (Z.to_N (n mod 256))) as [b|] eqn:Hb.
  - apply Byte.to_of_N in Hb. rewrite Hb. lia.
  - apply Byte.of_N_None_iff in Hb. lia.
Qed.

Lemma length_be_digits len n : length (be_digits len n) = len.
Proof.
  revert n. induction len as [|k IH]; intros n; simpl; [done|].
  rewrite length_app, IH. simpl. lia.
Qed.

Lemma from_bytes_snoc l b : from_bytes (l ++ [b]) = from_bytes l * 256 + byte_to_Z b.
Proof. unfold from_bytes. by rewrite foldl_app. Qed.

Lemma from_bytes_be_digits len n :
  from_bytes (be_digits len n) = n mod 256 ^ Z.of_nat len.
Proof.
  revert n. induction len as [|k IH]; intros n.
  - simpl. by rewrite Z.mod_1_r.
  - cbn [be_digits]. rewrite from_bytes_snoc, IH, byte_to_of_Z.
    rewrite Nat2Z.inj_succ, Z.pow_succ_r by lia.
    pose proof (Z.pow_pos_nonneg 256 (Z.of_nat k) ltac:(lia) ltac:(lia)).
    rewrite (Z.rem_mul_r n 256 (256 ^ Z.of_nat k)) by lia.
    rewrite Z.mod_mod by lia. lia.
Qed.

Lemma from_to_bytes len n b : to_bytes len n = Return b → from_bytes b = n.
Proof.
  unfold to_bytes. case_bool_decide as Hn; [|done].
  intros [= <-]. rewrite from_bytes_be_digits. by apply Z.mod_small.
Qed.

Lemma to_bytes_length len n b : to_bytes len n = Return b → length b = len.
Proof.
  unfold to_bytes. case_bool_decide; [|done].
  intros [= <-]. apply length_be_digits.
Qed.

(** ** The sender *)

Lemma to_bytes_4 n : 0 ≤ n < 2 ^ 32 → to_bytes 4 n = Return (be_digits 4 n).
Proof.
  intros Hn. unfold to_bytes. rewrite bool_decide_eq_true_2; [done|].
  change (256 ^ Z.of_nat 4) with (2 ^ 32). lia.
Qed.

Lemma to_bytes_2 n : 0 ≤ n < 65536 → to_bytes 2 n = Return (be_digits 2 n).
Proof.
  intros Hn. unfold to_bytes. rewrite bool_decide_eq_true_2; [done|].
  change (256 ^ Z.of_nat 2) with 65536. lia.
Qed.

Lemma to_bytes_2_overflow n : 65535 < n → to_bytes 2 n = Raise OverflowError.
Proof.
  intros Hn. unfold to_bytes. rewrite bool_decide_eq_false_2; [done|].
  change (256 ^ Z.of_nat 2) with 65536. lia.
Qed.

Lemma elem_of_range n i : i ∈ range n ↔ 0 ≤ i < n.
Proof.
  unfold range. rewrite list_elem_of_fmap. split.
  - intros (k & -> & Hk). apply elem_of_seq in Hk. lia.
  - intros Hi. exists (Z.to_nat i). split; [lia|]. apply elem_of_seq. lia.
Qed.

Lemma send_chunks_all file_data fcb tcb chunk_size idxs :
  Forall (λ i, 0 ≤ i < 65536) idxs →
  send_chunks file_data fcb tcb chunk_size idxs =
    (Return tt,
     (λ i, fcb ++ tcb ++ be_digits 2 i ++ chunk_of file_data chunk_size i) <$> idxs).
Proof.
  induction 1 as [|i idxs Hi _ IH]; [done|].
  cbn [send_chunks]. rewrite to_bytes_2 by done. by rewrite IH.
Qed.

(** The call that goes through: every chunk is handed to the transport and
    the wrapped increment is returned. *)
Lemma send_file_sends fs filepath file_data fc chunk_size fps :
  fs !! filepath = Some file_data →
  0 ≤ fc < 2 ^ 32 →
  chunk_size ≠ 0 →
  0 ≤ - ((- Z.of_nat (length file_data)) / chunk_size) < 65536 →
  fps ≠ 0 →
  send_file fs filepath fc chunk_size fps =
    TxRun (Return ((fc + 1) mod 2 ^ 32))
      (fragments file_data fc chunk_size
         (- ((- Z.of_nat (length file_data)) / chunk_size)))
      [InfoSendingFile filepath (Z.of_nat (length file_data)) fc;
       InfoFinishedSending filepath fc].
Proof.
  intros Hfs Hfc Hcs Htot Hfps. unfold send_file. rewrite Hfs.
  rewrite to_bytes_4 by done. unfold ceil_div.
  rewrite bool_decide_eq_false_2 by done.
  rewrite to_bytes_2 by done. rewrite bool_decide_eq_false_2 by done.
  rewrite send_chunks_all.
  - reflexivity.
  - apply Forall_forall. intros i Hi%elem_of_range. lia.
Qed.

(** Whenever [send_file] returns at all, it either could not read the file
    (and sent nothing), or went through every check and sent every chunk. *)
Lemma send_file_returns fs filepath fc chunk_size fps next :
  tx_result (send_file fs filepath fc chunk_size fps) = Return next →
  (fs !! filepath = None ∧ next = fc ∧
   tx_sent (send_file fs filepath fc chunk_size fps) = [])
  ∨ (∃ file_data,
       fs !! filepath = Some file_data ∧
       next = (fc + 1) mod 2 ^ 32 ∧
       0 ≤ - ((- Z.of_nat (length file_data)) / chunk_size) < 65536 ∧
       tx_sent (send_file fs filepath fc chunk_size fps) =
         fragments file_data fc chunk_size
           (- ((- Z.of_nat (length file_data)) / chunk_size))).
Proof.
  destruct (fs !! filepath) as [file_data|] eqn:Hfs.
  - intros Hret. right. exists file_data.
    assert (0 ≤ fc < 2 ^ 32) as Hfc.
    { revert Hret. unfold send_file, to_bytes. rewrite Hfs.
      change (256 ^ Z.of_nat 4) with (2 ^ 32). by case_bool_decide. }
    assert (chunk_size ≠ 0) as Hcs.
    { revert Hret. unfold send_file. rewrite Hfs, to_bytes_4 by done.
      unfold ceil_div. by case_bool_decide. }
    assert (0 ≤ - ((- Z.of_nat (length file_data)) / chunk_size) < 65536) as Htot.
    { revert Hret. unfold send_file. rewrite Hfs, to_bytes_4 by done.
      unfold ceil_div. rewrite bool_decide_eq_false_2 by done.
      unfold to_bytes at 1. change (256 ^ Z.of_nat 2) with 65536.
      by case_bool_decide. }
    assert (fps ≠ 0) as Hfps.
    { revert Hret. unfold send_file. rewrite Hfs, to_bytes_4 by done.
      unfold ceil_div. rewrite bool_decide_eq_false_2 by done.
      rewrite to_bytes_2 by done. by case_bool_decide. }
    revert Hret. rewrite (send_file_sends _ _ file_data) by done.
    cbn. intros [= <-]. done.
  - unfold send_file. rewrite Hfs. cbn. intros [= <-]. by left.
Qed.



(** *** Chunks *)

Lemma ceil_bounds n c :
  0 < c → let t := - ((- n) / c) in (t - 1) * c < n ≤ t * c.
Proof.
  intros Hc. cbv zeta.
  pose proof (Z.div_mod (- n) c ltac:(lia)) as Hdm.
  pose proof (Z.mod_pos_bound (- n) c Hc) as Hm. nia.
Qed.


(** For a positive chunk size the slice of chunk [i] is [chunk_size] bytes
    from offset [i * chunk_size], or what is left of the data. *)
Lemma chunk_of_take_drop file_data chunk_size i :
  0 < chunk_size → 0 ≤ i →
  chunk_of file_data chunk_size i =
    take (Z.to_nat chunk_size) (drop (Z.to_nat i * Z.to_nat chunk_size) file_data).
Proof.
  intros Hc Hi. unfold chunk_of, slice.
  replace (Z.to_nat (i * chunk_size)) with (Z.to_nat i * Z.to_nat chunk_size)%nat
    by nia.
  set (off := (Z.to_nat i * Z.to_nat chunk_size)%nat).
  destruct (decide (Z.of_nat off + chunk_size ≤ Z.of_nat (length file_data))) as [Hle|Hgt].
  - f_equal. subst off. nia.
  - rewrite !take_ge; [done| |]; rewrite length_drop; subst off; nia.
Qed.

Lemma concat_chunks (file_data : bytes) (c k : nat) :
  concat ((λ i, take c (drop (i * c) file_data)) <$> seq 0 k) =
    take (k * c) file_data.
Proof.
  induction k as [|k IH]; [done|].
  rewrite seq_S, fmap_app, concat_app, IH. cbn [fmap list_fmap concat].
  rewrite app_nil_r, take_take_drop. f_equal. lia.
Qed.

(** The slices of a frame, in index order, make up the file. *)
Lemma concat_chunk_of file_data chunk_size :
  0 < chunk_size →
  concat (chunk_of file_data chunk_size <$>
            range (- ((- Z.of_nat (length file_data)) / chunk_size))) = file_data.
Proof.
  intros Hc. unfold range. rewrite <- list_fmap_compose.
  pose proof (ceil_bounds (Z.of_nat (length file_data)) chunk_size Hc) as Hb.
  cbv zeta in Hb.
  set (t := - (- Z.of_nat (length file_data) / chunk_size)) in *.
  rewrite (list_fmap_ext _
    (λ i, take (Z.to_nat chunk_size) (drop (i * Z.to_nat chunk_size) file_data))).
  - rewrite concat_chunks. apply take_ge. nia.
  - intros _ i _. cbn. rewrite chunk_of_take_drop by lia. by rewrite Nat2Z.id.
Qed.

(** ** The receiver *)

Lemma from_bytes_nonneg b : 0 ≤ from_bytes b.
Proof.
  unfold from_bytes.
  assert (∀ acc, 0 ≤ acc → 0 ≤ foldl (λ acc x, acc * 256 + byte_to_Z x) acc b) as H.
  { induction b as [|x b IH]; intros acc Hacc; [done|].
    cbn. apply IH. pose proof (byte_to_Z_range x). lia. }
  by apply H.
Qed.

Lemma chunk_idx_of_nonneg data : 0 ≤ chunk_idx_of data.
Proof. apply from_bytes_nonneg. Qed.

Lemma header_parses fc total idx payload :
  0 ≤ fc < 2 ^ 32 → 0 ≤ total < 65536 → 0 ≤ idx < 65536 →
  (8 ≤ length (header fc total idx ++ payload))%nat ∧
  frame_counter_of (header fc total idx ++ payload) = fc ∧
  total_chunks_of (header fc total idx ++ payload) = total ∧
  chunk_idx_of (header fc total idx ++ payload) = idx ∧
  drop 8 (header fc total idx ++ payload) = payload.
Proof.
  intros Hfc Htot Hidx. split; [cbn; lia|].
  unfold frame_counter_of, total_chunks_of, chunk_idx_of.
  change (slice (header fc total idx ++ payload) 0 4) with (be_digits 4 fc).
  change (slice (header fc total idx ++ payload) 4 6) with (be_digits 2 total).
  change (slice (header fc total idx ++ payload) 6 8) with (be_digits 2 idx).
  rewrite !from_bytes_be_digits.
  change (256 ^ Z.of_nat 4) with (2 ^ 32). change (256 ^ Z.of_nat 2) with 65536.
  rewrite !Z.mod_small by lia. done.
Qed.

(** A datagram that passes the checks is handed to [reassemble] with the
    fields of its header. *)
Lemma datagram_received_valid now data d :
  (8 ≤ length data)%nat →
  0 < total_chunks_of data →
  chunk_idx_of data < total_chunks_of data →
  datagram_received now data d =
    reassemble now (frame_counter_of data) (total_chunks_of data)
      (chunk_idx_of data) (drop 8 data) d.
Proof.
  intros Hlen Htot Hidx. unfold datagram_received.
  rewrite bool_decide_eq_false_2 by lia.
  fold (total_chunks_of data) (chunk_idx_of data) (frame_counter_of data).
  rewrite bool_decide_eq_false_2 by lia. done.
Qed.

Lemma length_empty_slots total : length (empty_slots total) = Z.to_nat total.
Proof. apply length_replicate. Qed.

Lemma lookup_empty_slots total i :
  (i < Z.to_nat total)%nat → empty_slots total !! i = Some None.
Proof. intros Hi. by apply lookup_replicate_2. Qed.

Lemma filled_empty_slots total : filled (empty_slots total) = 0.
Proof. unfold empty_slots. induction (Z.to_nat total); [done|]. done. Qed.

Lemma filled_bounds slots : 0 ≤ filled slots ≤ Z.of_nat (length slots).
Proof. induction slots as [|[c|] slots IH]; cbn [filled length]; lia. Qed.

Lemma filled_insert slots i c :
  slots !! i = Some None →
  filled (<[i := Some c]> slots) = filled slots + 1.
Proof.
  revert i. induction slots as [|s slots IH]; intros [|i] Hi; try done.
  - cbn in Hi. injection Hi as ->. cbn. lia.
  - cbn in Hi. destruct s; cbn; rewrite IH by done; lia.
Qed.

(** When every slot is filled, [join] concatenates the payloads. *)
Lemma join_full slots :
  filled slots = Z.of_nat (length slots) →
  ∃ payloads, slots = Some <$> payloads ∧ join slots = Return (concat payloads).
Proof.
  induction slots as [|[c|] slots IH]; cbn [filled length]; intros Hf.
  - by exists [].
  - destruct IH as (ps & -> & Hj); [lia|].
    exists (c :: ps). cbn. by rewrite Hj.
  - pose proof (filled_bounds slots). lia.
Qed.

Lemma join_Some payloads : join (Some <$> payloads) = Return (concat payloads).
Proof. induction payloads as [|p ps IH]; [done|]. cbn. by rewrite IH. Qed.

(** A chunk that finds no entry for its frame counter. *)
Lemma reassemble_absent now fc total idx chunk_data d :
  d !! fc = None → 0 < total → 0 ≤ idx < total →
  reassemble now fc total idx chunk_data d = started now fc total idx chunk_data d [].
Proof.
  intros Hd Htot Hidx. unfold reassemble, started. rewrite Hd.
  unfold reset_on_mismatch. cbn [total_chunks].
  rewrite !(bool_decide_eq_false_2 (total ≠ total)) by (intros H; by apply H).
  cbn [chunks]. rewrite lookup_empty_slots by lia. cbn.
  destruct (decide (total = 1)) as [->|Hne].
  - assert (idx = 0) as -> by lia. rewrite !bool_decide_eq_true_2 by lia.
    change (join _) with (Return (chunk_data ++ [])). by rewrite app_nil_r.
  - rewrite !bool_decide_eq_false_2 by lia. done.
Qed.

(** A chunk whose header disagrees with the entry of its frame counter. *)
Lemma reassemble_mismatch now fc total idx chunk_data d info :
  d !! fc = Some info → total_chunks info ≠ total →
  0 < total → 0 ≤ idx < total →
  reassemble now fc total idx chunk_data d =
    started now fc total idx chunk_data d [WarnTotalChunksMismatch fc].
Proof.
  intros Hd Hne Htot Hidx. unfold reassemble, started. rewrite Hd.
  unfold reset_on_mismatch.
  rewrite !(bool_decide_eq_true_2 (total_chunks info ≠ total)) by done.
  cbn [chunks]. rewrite lookup_empty_slots by lia. cbn.
  destruct (decide (total = 1)) as [->|Hne1].
  - assert (idx = 0) as -> by lia. rewrite !bool_decide_eq_true_2 by lia.
    change (join _) with (Return (chunk_data ++ [])). by rewrite app_nil_r.
  - rewrite !bool_decide_eq_false_2 by lia. done.
Qed.

(** A chunk whose slot is already filled, in an entry that agrees with its
    header and is not complete. *)
Lemma reassemble_duplicate now fc total idx chunk_data d info p :
  d !! fc = Some info → total_chunks info = total →
  chunks info !! Z.to_nat idx = Some (Some p) →
  received_count info ≠ total_chunks info →
  reassemble now fc total idx chunk_data d = RxRun d (Return None) [].
Proof.
  intros Hd Htot Hslot Hopen. unfold reassemble. rewrite Hd.
  unfold reset_on_mismatch.
  rewrite !(bool_decide_eq_false_2 (total_chunks info ≠ total)) by (intros H; by apply H).
  rewrite Hslot. cbn [save_chunk].
  rewrite bool_decide_eq_false_2 by done. by rewrite insert_id.
Qed.

(** A chunk whose slot is empty, in an entry that agrees with its header. *)
Lemma reassemble_fill now fc total idx chunk_data d info :
  d !! fc = Some info → total_chunks info = total →
  chunks info !! Z.to_nat idx = Some None →
  reassemble now fc total idx chunk_data d =
    let info2 :=
      FrameInfo total (<[Z.to_nat idx := Some chunk_data]> (chunks info))
        (received_count info + 1) now in
    if bool_decide (received_count info + 1 = total)
    then
      match join (chunks info2) with
      | Raise e => RxRun (<[fc := info2]> d) (Raise e) []
      | Return complete_frame =>
          RxRun (delete fc d) (Return (Some (fc, complete_frame))) []
      end
    else RxRun (<[fc := info2]> d) (Return None) [].
Proof.
  intros Hd Htot Hslot. unfold reassemble. rewrite Hd.
  unfold reset_on_mismatch.
  rewrite !(bool_decide_eq_false_2 (total_chunks info ≠ total)) by (intros H; by apply H).
  rewrite Hslot. cbn [save_chunk received_count total_chunks chunks].
  by rewrite Htot.
Qed.

(** *** The invariant of the table *)

Lemma first_chunk_info_ok now total idx chunk_data :
  1 < total → 0 ≤ idx < total →
  frame_ok (first_chunk_info now total idx chunk_data).
Proof.
  intros Htot Hidx. split; cbn.
  - rewrite length_insert, length_empty_slots. lia.
  - rewrite filled_insert by (apply lookup_empty_slots; lia).
    by rewrite filled_empty_slots.
  - done.
Qed.

Lemma started_ok now fc total idx chunk_data d log :
  table_ok d → 0 < total → 0 ≤ idx < total →
  table_ok (rx_dict (started now fc total idx chunk_data d log)).
Proof.
  intros Hd Htot Hidx. unfold started. case_bool_decide; cbn.
  - by apply map_Forall_delete.
  - apply map_Forall_insert_2; [|done]. apply first_chunk_info_ok; lia.
Qed.

Lemma started_returns now fc total idx chunk_data d log :
  ∃ r, rx_result (started now fc total idx chunk_data d log) = Return r.
Proof. unfold started. case_bool_decide; cbn; eauto. Qed.

(** [reassemble] keeps the invariant and does not raise on a table that
    satisfies it. *)
Lemma reassemble_ok now fc total idx chunk_data d :
  table_ok d → 0 < total → 0 ≤ idx < total →
  table_ok (rx_dict (reassemble now fc total idx chunk_data d)) ∧
  ∃ r, rx_result (reassemble now fc total idx chunk_data d) = Return r.
Proof.
  intros Hd Htot Hidx.
  destruct (d !! fc) as [info|] eqn:Hfc.
  2:{ rewrite reassemble_absent by done.
      split; [by apply started_ok | apply started_returns]. }
  destruct (decide (total_chunks info = total)) as [Heq|Hne].
  2:{ rewrite (reassemble_mismatch _ _ _ _ _ _ info) by done.
      split; [by apply started_ok | apply started_returns]. }
  destruct (Hd _ _ Hfc) as [Hlen Hcount Hopen].
  destruct (chunks info !! Z.to_nat idx) as [[p|]|] eqn:Hslot.
  - rewrite (reassemble_duplicate _ _ _ _ _ _ info p) by (done || lia).
    cbn. eauto.
  - rewrite (reassemble_fill _ _ _ _ _ _ info) by done. cbv zeta.
    pose proof (filled_insert _ _ chunk_data Hslot) as Hfill.
    case_bool_decide as Hdone.
    + destruct (join_full (<[Z.to_nat idx := Some chunk_data]> (chunks info)))
        as (ps & _ & Hjoin).
      { rewrite Hfill, length_insert. lia. }
      cbn [chunks]. rewrite Hjoin. cbn. split; [by apply map_Forall_delete | eauto].
    + cbn. split; [|eauto]. apply map_Forall_insert_2; [|done].
      split; cbn; [rewrite length_insert; lia | lia | lia].
  - apply lookup_ge_None in Hslot. lia.
Qed.

Lemma datagram_received_ok now data d :
  table_ok d →
  table_ok (rx_dict (datagram_received now data d)) ∧
  ∃ r, rx_result (datagram_received now data d) = Return r.
Proof.
  intros Hd. unfold datagram_received.
  case_bool_decide; [cbn; eauto|].
  case_bool_decide as Hbad; [cbn; eauto|].
  apply reassemble_ok; [done| |].
  - lia.
  - pose proof (from_bytes_nonneg (slice data 6 8)). lia.
Qed.

(** *** The sweep *)

Lemma lookup_foldl_delete (d : gmap Z frame_info) ks k :
  foldl (λ acc fc, delete fc acc) d ks !! k =
    if decide (k ∈ ks) then None else d !! k.
Proof.
  revert d. induction ks as [|fc ks IH]; intros d; cbn [foldl].
  - by rewrite decide_False by apply not_elem_of_nil.
  - rewrite IH. destruct (decide (k ∈ ks)) as [Hin|Hout].
    + by rewrite decide_True by (by apply list_elem_of_further).
    + destruct (decide (k = fc)) as [->|Hne].
      * rewrite lookup_delete_eq. by rewrite decide_True by apply list_elem_of_here.
      * rewrite lookup_delete_ne by done.
        rewrite decide_False; [done|]. by intros [?|?]%elem_of_cons.
Qed.

Lemma elem_of_to_remove now frame_timeout d k :
  k ∈ to_remove now frame_timeout d ↔
  ∃ info, d !! k = Some info ∧ now - last_update info > frame_timeout.
Proof.
  unfold to_remove, stale_items. rewrite list_elem_of_fmap. split.
  - intros ([k' info] & -> & Hin). apply list_elem_of_filter in Hin as [Hst Hin].
    apply elem_of_map_to_list in Hin. exists info. split; [done|].
    unfold stale in Hst. cbn in Hst. by apply bool_decide_eq_true_1 in Hst.
  - intros (info & Hk & Hst). exists (k, info). split; [done|].
    apply list_elem_of_filter. split.
    + unfold stale. cbn. by apply bool_decide_eq_true_2.
    + by apply elem_of_map_to_list.
Qed.

(** The table after a sweep, key by key: a stale entry is gone, any other
    entry is as it was. *)
Lemma lookup_cleanup_tick now frame_timeout d k :
  (cleanup_tick now frame_timeout d).1 !! k =
    match d !! k with
    | Some info =>
        if bool_decide (now - last_update info > frame_timeout)
        then None else Some info
    | None => None
    end.
Proof.
  unfold cleanup_tick. cbn [fst]. rewrite lookup_foldl_delete.
  destruct (decide (k ∈ to_remove now frame_timeout d)) as [Hin|Hout].
  - apply elem_of_to_remove in Hin as (info & -> & Hst).
    by rewrite bool_decide_eq_true_2.
  - destruct (d !! k) as [info|] eqn:Hk; [|done].
    rewrite bool_decide_eq_false_2; [done|].
    intros Hst. apply Hout, elem_of_to_remove. eauto.
Qed.

Lemma cleanup_tick_ok now frame_timeout d :
  table_ok d → table_ok (cleanup_tick now frame_timeout d).1.
Proof.
  intros Hd k info Hk. rewrite lookup_cleanup_tick in Hk.
  destruct (d !! k) as [info'|] eqn:Hk'; [|done].
  case_bool_decide; [done|]. injection Hk as <-. by eapply Hd.
Qed.

Lemma reachable_ok frame_timeout d : reachable frame_timeout d → table_ok d.
Proof.
  induction 1 as [|now data d _ IH|now d _ IH].
  - apply map_Forall_empty.
  - by apply datagram_received_ok.
  - by apply cleanup_tick_ok.
Qed.

(** On a table the receiver can hold, [datagram_received] never raises. *)
Lemma reachable_never_raises frame_timeout now data d :
  reachable frame_timeout d →
  ∃ r, rx_result (datagram_received now data d) = Return r.
Proof. intros Hreach%reachable_ok. by apply datagram_received_ok. Qed.

(** C9.  Every table the receiver can hold, starting from the empty one and
    going through any sequence of [datagram_received] calls and sweep
    ticks, satisfies in every entry: [received_count] is the number of
    non-empty slots, and [received_count <= total_chunks]. *)
Theorem C9_partial_frame_invariant frame_timeout d fc info :
  reachable frame_timeout d →
  d !! fc = Some info →
  received_count info = filled (chunks info) ∧
  received_count info ≤ total_chunks info.
Proof.
  intros Hreach Hfc. destruct (reachable_ok _ _ Hreach _ _ Hfc) as [_ Hc Ho].
  split; [done | lia].
Qed.

Lemma C9_partial_frame_invariant_witness :
  let d := rx_dict (datagram_received 3 (header 7 3 1 ++ [x41; x42]) ∅) in
  d !! 7 = Some (FrameInfo 3 [None; Some [x41; x42]; None] 1 3) ∧
  (1 = filled [None; Some [x41; x42]; None] ∧ 1 ≤ 3).
Proof.
  split; [reflexivity|].
  apply (C9_partial_frame_invariant 5
           (rx_dict (datagram_received 3 (header 7 3 1 ++ [x41; x42]) ∅)) 7
           (FrameInfo 3 [None; Some [x41; x42]; None] 1 3)).
  - apply reachable_datagram, reachable_init.
  - reflexivity.
Defined.

(** C3.  A datagram shorter than 8 bytes, or one whose header carries
    [TotalChunks = 0] or [ChunkIndex >= TotalChunks], is rejected whatever
    the table holds: one warning is logged (packet too small, or invalid
    header), the table is returned as it was (every entry with its slots,
    count, total and time stamp), and no frame is handed over. *)
Theorem C3_rejected_datagram_changes_nothing now data d :
  (length data < 8)%nat
  ∨ ((8 ≤ length data)%nat ∧
     (total_chunks_of data = 0 ∨ chunk_idx_of data >= total_chunks_of data)) →
  datagram_received now data d =
    RxRun d (Return None)
      [if bool_decide (length data < 8)%nat
       then WarnPacketTooSmall (length data)
       else WarnInvalidHeader (chunk_idx_of data) (total_chunks_of data)].
Proof.
  intros [Hshort|(Hlen & Hbad)]; unfold datagram_received.
  - by rewrite !bool_decide_eq_true_2 by done.
  - rewrite !(bool_decide_eq_false_2 (length data < 8)%nat) by lia.
    fold (total_chunks_of data) (chunk_idx_of data).
    by rewrite bool_decide_eq_true_2 by lia.
Qed.

Lemma C3_rejected_datagram_changes_nothing_witness :
  let d : gmap Z frame_info := {[ 7 := FrameInfo 3 [None; Some [x41]; None] 1 3 ]} in
  datagram_received 9 [x00; x00; x00] d = RxRun d (Return None) [WarnPacketTooSmall 3]
  ∧ datagram_received 9 (header 7 0 0 ++ [x42]) d =
      RxRun d (Return None) [WarnInvalidHeader 0 0]
  ∧ datagram_received 9 (header 7 3 3 ++ [x42]) d =
      RxRun d (Return None) [WarnInvalidHeader 3 3].
Proof.
  cbv zeta. split; [|split].
  - apply (C3_rejected_datagram_changes_nothing 9 [x00; x00; x00]).
    left. cbn. lia.
  - apply (C3_rejected_datagram_changes_nothing 9 (header 7 0 0 ++ [x42])).
    right. split; [cbn; lia|]. left. reflexivity.
  - apply (C3_rejected_datagram_changes_nothing 9 (header 7 3 3 ++ [x42])).
    right. split; [cbn; lia|]. right. vm_compute. discriminate.
Defined.

(** C4.  A valid chunk whose header disagrees with the [total_chunks] of
    the entry stored for its frame counter: the entry is reset (every slot
    empty, count 0, the incoming total), and only then the payload is
    stored.  What is left is what a first chunk leaves: the payload in its
    slot and nothing else, count 1; a frame announced as one chunk is
    complete at once.  One mismatch warning is logged. *)
Theorem C4_newest_header_wins now data d info :
  (8 ≤ length data)%nat →
  0 < total_chunks_of data →
  chunk_idx_of data < total_chunks_of data →
  d !! frame_counter_of data = Some info →
  total_chunks info ≠ total_chunks_of data →
  reset_on_mismatch (total_chunks_of data) info =
    FrameInfo (total_chunks_of data) (empty_slots (total_chunks_of data)) 0
      (last_update info)
  ∧ datagram_received now data d =
      (if bool_decide (total_chunks_of data = 1)
       then RxRun (delete (frame_counter_of data) d)
              (Return (Some (frame_counter_of data, drop 8 data)))
              [WarnTotalChunksMismatch (frame_counter_of data)]
       else RxRun
              (<[frame_counter_of data :=
                   FrameInfo (total_chunks_of data)
                     (<[Z.to_nat (chunk_idx_of data) := Some (drop 8 data)]>
                        (empty_slots (total_chunks_of data)))
                     1 now]> d)
              (Return None)
              [WarnTotalChunksMismatch (frame_counter_of data)]).
Proof.
  intros Hlen Htot Hidx Hfc Hne. split.
  - unfold reset_on_mismatch. by rewrite bool_decide_eq_true_2.
  - rewrite datagram_received_valid by done.
    pose proof (chunk_idx_of_nonneg data) as Hnn.
    by rewrite (reassemble_mismatch _ _ _ _ _ _ info) by (done || lia).
Qed.

Lemma C4_newest_header_wins_witness :
  let d : gmap Z frame_info :=
    {[ 7 := FrameInfo 3 [Some [x41]; Some [x42]; None] 2 3 ]} in
  datagram_received 9 (header 7 4 2 ++ [x43]) d =
    RxRun (<[7 := FrameInfo 4 [None; None; Some [x43]; None] 1 9]> d)
      (Return None) [WarnTotalChunksMismatch 7].
Proof.
  cbv zeta.
  refine (proj2 (C4_newest_header_wins 9 (header 7 4 2 ++ [x43])
    {[ 7 := FrameInfo 3 [Some [x41]; Some [x42]; None] 2 3 ]}
    (FrameInfo 3 [Some [x41]; Some [x42]; None] 2 3) _ _ _ _ _)).
  - cbn. lia.
  - reflexivity.
  - reflexivity.
  - reflexivity.
  - vm_compute. discriminate.
Defined.

(** C2.  On a table the receiver can hold, a chunk whose header agrees with
    the entry stored for its frame counter and whose slot is already
    filled changes nothing: the table is returned as it was (so
    [received_count] and [last_update] are unchanged), nothing is logged
    and no frame is completed. *)
Theorem C2_duplicate_chunk_is_ignored frame_timeout now data d info p :
  reachable frame_timeout d →
  (8 ≤ length data)%nat →
  d !! frame_counter_of data = Some info →
  total_chunks info = total_chunks_of data →
  chunks info !! Z.to_nat (chunk_idx_of data) = Some (Some p) →
  datagram_received now data d = RxRun d (Return None) [].
Proof.
  intros Hreach Hlen Hfc Htot Hslot.
  destruct (reachable_ok _ _ Hreach _ _ Hfc) as [Hl Hc Ho].
  pose proof (filled_bounds (chunks info)) as Hfb.
  pose proof (chunk_idx_of_nonneg data) as Hnn.
  apply lookup_lt_Some in Hslot as Hlt.
  rewrite datagram_received_valid by lia.
  apply (reassemble_duplicate _ _ _ _ _ _ info p); (done || lia).
Qed.

Lemma C2_duplicate_chunk_is_ignored_witness :
  let d := rx_dict (datagram_received 3 (header 7 3 1 ++ [x41; x42]) ∅) in
  datagram_received 4 (header 7 3 1 ++ [x41; x42]) d = RxRun d (Return None) [].
Proof.
  cbv zeta.
  apply (C2_duplicate_chunk_is_ignored 5 4 (header 7 3 1 ++ [x41; x42])
           (rx_dict (datagram_received 3 (header 7 3 1 ++ [x41; x42]) ∅))
           (FrameInfo 3 [None; Some [x41; x42]; None] 1 3) [x41; x42]).
  - apply reachable_datagram, reachable_init.
  - cbn. lia.
  - reflexivity.
  - reflexivity.
  - reflexivity.
Defined.

(** The statement of C2 as it is worded, for any chunk whose slot is
    filled, fails when the header of the chunk carries another total than
    the entry.  After chunks 0 and 1 of frame 7 (3 chunks) slot 0 is filled,
    the count is 2 and the time stamp 3.  A chunk (frame 7, index 0) that
    announces 2 chunks brings the count to 1 and the time stamp to 10; one
    that announces 1 chunk completes frame 7. *)
Lemma C2_filled_slot_conflicting_header :
  let d := rx_dict (datagram_received 3 (header 7 3 1 ++ [x42])
             (rx_dict (datagram_received 3 (header 7 3 0 ++ [x41]) ∅))) in
  let run := datagram_received 10 (header 7 2 0 ++ [x49]) d in
  reachable 5 d
  ∧ (∃ info, d !! 7 = Some info ∧ chunks info !! 0%nat = Some (Some [x41]) ∧
       received_count info = 2 ∧ last_update info = 3)
  ∧ (∃ info', rx_dict run !! 7 = Some info' ∧
       received_count info' = 1 ∧ last_update info' = 10)
  ∧ rx_result (datagram_received 10 (header 7 1 0 ++ [x49]) d) =
      Return (Some (7, [x49])).
Proof.
  cbv zeta. split; [|split; [|split]].
  - do 2 apply reachable_datagram. apply reachable_init.
  - by exists (FrameInfo 3 [Some [x41]; Some [x42]; None] 2 3).
  - by exists (FrameInfo 2 [Some [x49]; None] 1 10).
  - reflexivity.
Qed.



(** ** Round trip *)

Lemma Permutation_fmap_inv {A B} (f : A → B) (l1 : list B) (l2 : list A) :
  l1 ≡ₚ f <$> l2 → ∃ l3, l1 = f <$> l3 ∧ l2 ≡ₚ l3.
Proof. apply Permutation_map_inv. Qed.

Lemma NoDup_range n : NoDup (range n).
Proof.
  unfold range. apply NoDup_fmap_2; [|apply NoDup_seq].
  intros x y Hxy. lia.
Qed.

Lemma length_range n : length (range n) = Z.to_nat n.
Proof. unfold range. by rewrite length_fmap, length_seq. Qed.

Lemma lookup_range n (k : nat) :
  (k < Z.to_nat n)%nat → range n !! k = Some (Z.of_nat k).
Proof.
  intros Hk. unfold range. rewrite list_lookup_fmap, lookup_seq_lt by done. done.
Qed.

Lemma collected_empty file_data chunk_size total now :
  collected file_data chunk_size total []
    (FrameInfo total (empty_slots total) 0 now).
Proof.
  repeat split; cbn.
  - apply length_empty_slots.
  - intros i Hi. rewrite lookup_empty_slots by lia.
    by rewrite decide_False by apply not_elem_of_nil.
Qed.

Lemma collected_insert file_data chunk_size total got info i now :
  collected file_data chunk_size total got info →
  0 ≤ i < total → i ∉ got →
  collected file_data chunk_size total (i :: got)
    (FrameInfo total
       (<[Z.to_nat i := Some (chunk_of file_data chunk_size i)]> (chunks info))
       (received_count info + 1) now).
Proof.
  intros (Htot & Hlen & Hcount & Hslots) Hi Hnew. repeat split; cbn.
  - by rewrite length_insert.
  - rewrite Hcount. lia.
  - intros j Hj. destruct (decide (j = i)) as [->|Hne].
    + rewrite list_lookup_insert_eq by lia.
      by rewrite decide_True by apply list_elem_of_here.
    + rewrite list_lookup_insert_ne by lia. rewrite Hslots by done.
      destruct (decide (j ∈ got)) as [Hin|Hout].
      * by rewrite decide_True by (by apply list_elem_of_further).
      * rewrite decide_False; [done|]. by intros [?|?]%elem_of_cons.
Qed.

Lemma collected_full file_data chunk_size total got info :
  collected file_data chunk_size total got info →
  (∀ i, 0 ≤ i < total → i ∈ got) →
  chunks info = Some <$> (chunk_of file_data chunk_size <$> range total).
Proof.
  intros (Htot & Hlen & Hcount & Hslots) Hall. apply list_eq. intros k.
  destruct (decide (k < Z.to_nat total)%nat) as [Hk|Hk].
  - rewrite !list_lookup_fmap, lookup_range by done. cbn.
    pose proof (Hslots (Z.of_nat k) ltac:(lia)) as Hs.
    rewrite Nat2Z.id in Hs. rewrite Hs.
    by rewrite decide_True by (apply Hall; lia).
  - rewrite !lookup_ge_None_2; [done| |lia].
    rewrite !length_fmap, length_range. lia.
Qed.

(** An entry with every slot empty and count 0 is as good as no entry. *)
Lemma reassemble_absent_as_empty now fc total idx chunk_data d t :
  d !! fc = None → 0 < total → 0 ≤ idx < total →
  reassemble now fc total idx chunk_data
    (<[fc := FrameInfo total (empty_slots total) 0 t]> d) =
  reassemble now fc total idx chunk_data d.
Proof.
  intros Hd Htot Hidx. rewrite (reassemble_absent _ _ _ _ _ d) by done.
  rewrite (reassemble_fill _ _ _ _ _ _ (FrameInfo total (empty_slots total) 0 t));
    [|apply lookup_insert_eq|done|cbn; apply lookup_empty_slots; lia].
  cbv zeta. unfold started. cbn [received_count chunks].
  destruct (decide (total = 1)) as [->|Hne].
  - assert (idx = 0) as -> by lia. rewrite !bool_decide_eq_true_2 by done.
    change (join _) with (Return (chunk_data ++ [])).
    by rewrite app_nil_r, delete_insert_eq.
  - rewrite !bool_decide_eq_false_2 by lia. by rewrite insert_insert_eq.
Qed.

Lemma deliver_cons_ext now data rest d1 d2 :
  datagram_received now data d1 = datagram_received now data d2 →
  deliver ((now, data) :: rest) d1 = deliver ((now, data) :: rest) d2.
Proof. intros H. cbn [deliver]. by rewrite H. Qed.

Section round_trip.
Variables (file_data : bytes) (fc chunk_size total : Z).
Hypothesis Hfc : 0 ≤ fc < 2 ^ 32.
Hypothesis Htotal : 0 < total < 65536.
Hypothesis Hconcat :
  concat (chunk_of file_data chunk_size <$> range total) = file_data.

Lemma fragment_received now i d :
  0 ≤ i < total →
  datagram_received now (fragment file_data fc chunk_size total i) d =
    reassemble now fc total i (chunk_of file_data chunk_size i) d.
Proof.
  intros Hi. unfold fragment.
  destruct (header_parses fc total i (chunk_of file_data chunk_size i))
    as (Hlen & Hf & Ht & Hx & Hp); [lia..|].
  rewrite datagram_received_valid by lia.
  by rewrite Hf, Ht, Hx, Hp.
Qed.

(** The table holds the chunks [got] of the frame; the chunks [idxs], all
    of the others, arrive in this order: the last one completes the frame
    and the entry leaves the table. *)
Lemma deliver_collecting idxs : ∀ arrivals got info d,
  arrivals.*2 = fragment file_data fc chunk_size total <$> idxs →
  got ++ idxs ≡ₚ range total →
  idxs ≠ [] →
  collected file_data chunk_size total got info →
  d !! fc = None →
  deliver arrivals (<[fc := info]> d) = (d, [(fc, file_data)], []).
Proof.
  induction idxs as [|i idxs IH]; intros arrivals got info d Harr Hperm Hne Hcol Hd;
    [done|].
  destruct arrivals as [|[now data] arrivals]; [done|].
  change (data :: arrivals.*2 =
            fragment file_data fc chunk_size total i ::
              (fragment file_data fc chunk_size total <$> idxs)) in Harr.
  injection Harr as -> Harr.
  assert (NoDup (got ++ i :: idxs)) as Hnd.
  { rewrite Hperm. apply NoDup_range. }
  assert (0 ≤ i < total) as Hi.
  { apply elem_of_range. rewrite <- Hperm. apply elem_of_app. right.
    apply list_elem_of_here. }
  assert (i ∉ got) as Hnew.
  { apply NoDup_app in Hnd as (_ & Hdisj & _). intros Hin.
    apply (Hdisj i Hin), list_elem_of_here. }
  assert (length got + S (length idxs) = Z.to_nat total)%nat as Hlen.
  { apply Permutation_length in Hperm.
    rewrite length_app, length_range in Hperm. exact Hperm. }
  pose proof Hcol as (Htot & Hclen & Hcount & Hslots).
  cbn [deliver]. rewrite fragment_received by done.
  rewrite (reassemble_fill _ _ _ _ _ _ info);
    [|apply lookup_insert_eq|done|by rewrite Hslots, decide_False by done].
  cbv zeta.
  pose proof (collected_insert _ _ _ _ _ i now Hcol Hi Hnew) as Hcol'.
  case_bool_decide as Hdone.
  - assert (idxs = []) as -> by (apply nil_length_inv; lia).
    apply fmap_nil_inv in Harr as ->.
    rewrite (collected_full _ _ _ _ _ Hcol').
    + rewrite join_Some, Hconcat. cbn.
      by rewrite delete_insert_eq, delete_id.
    + intros j Hj. apply elem_of_range in Hj. rewrite <- Hperm in Hj.
      apply elem_of_app in Hj as [Hj|Hj]; [by apply list_elem_of_further|].
      apply list_elem_of_singleton in Hj as ->. apply list_elem_of_here.
  - cbn [rx_dict rx_result]. rewrite insert_insert_eq.
    rewrite (IH arrivals (i :: got) _ d Harr); [done| | |done|done].
    + by rewrite <- Permutation_middle in Hperm.
    + intros ->. cbn in Hlen. lia.
Qed.
End round_trip.





(** ** The sender at its limits *)



(** C7.  When the file needs more than 65535 chunks at the given chunk
    size, [send_file] raises [OverflowError] before the loop over the
    chunks: no datagram has been handed to the transport, only the "sending"
    record has been logged, and no frame counter is returned.  The
    exception is the result of the call. *)
Theorem C7_too_many_chunks_raises fs filepath file_data fc chunk_size fps :
  fs !! filepath = Some file_data →
  65535 < - ((- Z.of_nat (length file_data)) / chunk_size) →
  send_file fs filepath fc chunk_size fps =
    TxRun (Raise OverflowError) []
      [InfoSendingFile filepath (Z.of_nat (length file_data)) fc].
Proof.
  intros Hfs Hmany. unfold send_file. rewrite Hfs.
  unfold to_bytes at 1. case_bool_decide; [|done].
  assert (chunk_size ≠ 0) as Hcs.
  { intros ->. rewrite Z.div_0_r in Hmany. lia. }
  unfold ceil_div. rewrite bool_decide_eq_false_2 by done.
  by rewrite to_bytes_2_overflow.
Qed.

Lemma C7_too_many_chunks_raises_witness :
  send_file {[ "big.ply" := replicate (Z.to_nat 65536) x00 ]} "big.ply" 0 1 30 =
    TxRun (Raise OverflowError) [] [InfoSendingFile "big.ply" 65536 0].
Proof.
  refine (C7_too_many_chunks_raises
    {[ "big.ply" := replicate (Z.to_nat 65536) x00 ]} "big.ply"
    (replicate (Z.to_nat 65536) x00) 0 1 30 _ _).
  - reflexivity.
  - vm_compute. reflexivity.
Defined.

(** The statement of C7 as it is worded fails in its second half: the
    condition is not handled inside [send_file], whose call ends with the
    exception instead of returning, and the polling loop that made the call
    does not catch it either: the pass over the files ends there and the
    next file, which is fine, is not sent. *)
Lemma C7_overflow_is_not_handled :
  let fs : gmap string bytes :=
    {[ "big.ply" := replicate (Z.to_nat 65536) x00; "next.ply" := [x01] ]} in
  tx_sent (send_file fs "big.ply" 0 1 30) = []
  ∧ ¬ (∃ next, tx_result (send_file fs "big.ply" 0 1 30) = Return next)
  ∧ send_new_files fs ["big.ply"; "next.ply"] (MonitorState ∅ 0) 1 30 =
      (Raise OverflowError, [])
  ∧ send_new_files fs ["next.ply"] (MonitorState ∅ 0) 1 30 =
      (Return (MonitorState {[ "next.ply" ]} 1), [header 0 1 0 ++ [x01]]).
Proof.
  cbv zeta. split; [vm_compute; reflexivity|]. split; [|split].
  - intros [next Hnext]. vm_compute in Hnext. discriminate.
  - vm_compute. reflexivity.
  - vm_compute. reflexivity.
Qed.



(** * Further properties of the code *)

(** ** The integer codec *)

Lemma byte_of_to_Z b : byte_of_Z (byte_to_Z b) = b.
Proof.
  unfold byte_of_Z. rewrite Z.mod_small by apply byte_to_Z_range.
  unfold byte_to_Z. rewrite N2Z.id. by rewrite Byte.of_to_N.
Qed.

Lemma from_bytes_bound b : from_bytes b < 256 ^ Z.of_nat (length b).
Proof.
  induction b as [|x b IH] using rev_ind; [done|].
  rewrite from_bytes_snoc, length_app, Nat.add_1_r, Nat2Z.inj_succ.
  rewrite Z.pow_succ_r by lia. pose proof (byte_to_Z_range x). lia.
Qed.

Lemma be_digits_from_bytes b : be_digits (length b) (from_bytes b) = b.
Proof.
  induction b as [|x b IH] using rev_ind; [done|].
  rewrite from_bytes_snoc, length_app, Nat.add_1_r. cbn [be_digits].
  pose proof (byte_to_Z_range x) as Hx.
  replace ((from_bytes b * 256 + byte_to_Z x) / 256) with (from_bytes b)
    by (apply (Z.div_unique _ _ _ (byte_to_Z x)); lia).
  replace ((from_bytes b * 256 + byte_to_Z x) mod 256) with (byte_to_Z x)
    by (apply (Z.mod_unique _ _ (from_bytes b)); lia).
  by rewrite IH, byte_of_to_Z.
Qed.

(** X1.  [n.to_bytes(len, 'big')] followed by [int.from_bytes(.., "big")]
    gives [n] back, on exactly [len] bytes, for every [n] that fits; for
    every other [n] the encoding raises [OverflowError]. *)
Theorem X1_to_bytes_from_bytes len n :
  (0 ≤ n < 256 ^ Z.of_nat len →
   ∃ b, to_bytes len n = Return b ∧ length b = len ∧ from_bytes b = n)
  ∧ (¬ 0 ≤ n < 256 ^ Z.of_nat len → to_bytes len n = Raise OverflowError).
Proof.
  split; intros Hn; unfold to_bytes.
  - rewrite bool_decide_eq_true_2 by done. eexists. split; [done|].
    split; [apply length_be_digits|].
    rewrite from_bytes_be_digits. by apply Z.mod_small.
  - by rewrite bool_decide_eq_false_2.
Qed.

Lemma X1_to_bytes_from_bytes_witness :
  (∃ b, to_bytes 2 513 = Return b ∧ length b = 2%nat ∧ from_bytes b = 513)
  ∧ to_bytes 2 65536 = Raise OverflowError
  ∧ to_bytes 4 (-1) = Raise OverflowError.
Proof.
  split; [|split].
  - apply (proj1 (X1_to_bytes_from_bytes 2 513)). vm_compute. by split.
  - apply (proj2 (X1_to_bytes_from_bytes 2 65536)). vm_compute. by intros [_ [=]].
  - apply (proj2 (X1_to_bytes_from_bytes 4 (-1))). vm_compute. intros [H _]. by apply H.
Defined.

(** X2.  Decoding any byte string and encoding the number on as many bytes
    gives the byte string back: the decoded number always fits, and no two
    byte strings of one length decode to the same number. *)
Theorem X2_from_bytes_to_bytes b :
  0 ≤ from_bytes b < 256 ^ Z.of_nat (length b)
  ∧ to_bytes (length b) (from_bytes b) = Return b.
Proof.
  pose proof (from_bytes_nonneg b). pose proof (from_bytes_bound b).
  split; [lia|]. unfold to_bytes. rewrite bool_decide_eq_true_2 by lia.
  by rewrite be_digits_from_bytes.
Qed.

(** ** What [send_file] puts on the wire *)

(** The checks a call has passed when it returns for a file it could read. *)
Lemma send_file_returned_checks fs filepath file_data fc chunk_size fps next :
  fs !! filepath = Some file_data →
  tx_result (send_file fs filepath fc chunk_size fps) = Return next →
  0 ≤ fc < 2 ^ 32 ∧ chunk_size ≠ 0 ∧ fps ≠ 0 ∧
  0 ≤ - ((- Z.of_nat (length file_data)) / chunk_size) < 65536.
Proof.
  intros Hfs Hret.
  assert (0 ≤ fc < 2 ^ 32) as Hfc.
  { revert Hret. unfold send_file, to_bytes. rewrite Hfs.
    change (256 ^ Z.of_nat 4) with (2 ^ 32). by case_bool_decide. }
  assert (chunk_size ≠ 0) as Hcs.
  { revert Hret. unfold send_file. rewrite Hfs, to_bytes_4 by done.
    unfold ceil_div. by case_bool_decide. }
  assert (0 ≤ - ((- Z.of_nat (length file_data)) / chunk_size) < 65536) as Htot.
  { revert Hret. unfold send_file. rewrite Hfs, to_bytes_4 by done.
    unfold ceil_div. rewrite bool_decide_eq_false_2 by done.
    unfold to_bytes at 1. change (256 ^ Z.of_nat 2) with 65536.
    by case_bool_decide. }
  repeat split; try done; try lia.
  revert Hret. unfold send_file. rewrite Hfs, to_bytes_4 by done.
  unfold ceil_div. rewrite bool_decide_eq_false_2 by done.
  rewrite to_bytes_2 by done. by case_bool_decide.
Qed.

Lemma lookup_fragments file_data fc chunk_size total (k : nat) datagram :
  fragments file_data fc chunk_size total !! k = Some datagram →
  Z.of_nat k < total ∧
  datagram = fragment file_data fc chunk_size total (Z.of_nat k).
Proof.
  unfold fragments. rewrite list_lookup_fmap. intros Hk.
  destruct (range total !! k) as [i|] eqn:Hi; [|done].
  apply lookup_lt_Some in Hi as Hlt. rewrite length_range in Hlt.
  rewrite lookup_range in Hi by done. injection Hi as <-.
  cbn in Hk. injection Hk as <-. split; [lia|done].
Qed.

(** A chunk count above 0 can only come from a positive chunk size. *)
Lemma ceil_pos_chunk_size n c : 0 ≤ n → c ≠ 0 → 0 < - ((- n) / c) → 0 < c.
Proof.
  intros Hn Hc Ht. destruct (decide (0 < c)) as [|Hneg]; [done|].
  assert (0 ≤ (- n) / c); [|lia].
  pose proof (Z.div_mod (- n) c Hc) as Hdm.
  pose proof (Z.mod_neg_bound (- n) c ltac:(lia)) as Hm. nia.
Qed.

Lemma length_chunk_of file_data chunk_size i :
  0 < chunk_size → 0 ≤ i →
  Z.of_nat (length (chunk_of file_data chunk_size i)) =
    Z.max 0 (Z.min chunk_size (Z.of_nat (length file_data) - i * chunk_size)).
Proof.
  intros Hc Hi. rewrite chunk_of_take_drop by done.
  rewrite length_take, length_drop. nia.
Qed.

(** X3.  Whenever [send_file] returns for a file it could read, the
    datagram at position [k] of what it sent is read by the receiver as:
    the frame counter of the call, the number of chunks of the file, the
    index [k], and the slice of the file for chunk [k]; and its header
    passes the two checks of [datagram_received]. *)
Theorem X3_sent_datagram_parses fs filepath file_data fc chunk_size fps next
    (k : nat) datagram :
  fs !! filepath = Some file_data →
  tx_result (send_file fs filepath fc chunk_size fps) = Return next →
  tx_sent (send_file fs filepath fc chunk_size fps) !! k = Some datagram →
  (8 ≤ length datagram)%nat
  ∧ frame_counter_of datagram = fc
  ∧ total_chunks_of datagram = - ((- Z.of_nat (length file_data)) / chunk_size)
  ∧ chunk_idx_of datagram = Z.of_nat k
  ∧ drop 8 datagram = chunk_of file_data chunk_size (Z.of_nat k)
  ∧ 0 < total_chunks_of datagram
  ∧ chunk_idx_of datagram < total_chunks_of datagram.
Proof.
  intros Hfs Hret Hk.
  destruct (send_file_returned_checks _ _ _ _ _ _ _ Hfs Hret)
    as (Hfc & Hcs & Hfps & Htot).
  rewrite (send_file_sends _ _ file_data) in Hk by done. cbn [tx_sent] in Hk.
  apply lookup_fragments in Hk as (Hlt & ->). unfold fragment.
  destruct (header_parses fc (- ((- Z.of_nat (length file_data)) / chunk_size))
              (Z.of_nat k) (chunk_of file_data chunk_size (Z.of_nat k)))
    as (H8 & Hf & Ht & Hx & Hp); [lia..|].
  rewrite Hf, Ht, Hx, Hp. repeat split; (done || lia).
Qed.

Lemma X3_sent_datagram_parses_witness :
  let datagram := header 7 3 1 ++ [x03; x04] in
  (8 ≤ length datagram)%nat
  ∧ frame_counter_of datagram = 7
  ∧ total_chunks_of datagram = 3
  ∧ chunk_idx_of datagram = 1
  ∧ drop 8 datagram = [x03; x04]
  ∧ 0 < total_chunks_of datagram
  ∧ chunk_idx_of datagram < total_chunks_of datagram.
Proof.
  exact (X3_sent_datagram_parses {[ "a.ply" := [x01; x02; x03; x04; x05] ]}
           "a.ply" [x01; x02; x03; x04; x05] 7 2 30 8 1
           (header 7 3 1 ++ [x03; x04]) eq_refl eq_refl eq_refl).
Defined.

(** X4.  Whenever [send_file] returns for a file it could read, every
    datagram it sent carries the 8 header bytes and at least one and at
    most [chunk_size] bytes of the file, and every datagram but the last
    carries exactly [chunk_size] bytes. *)
Theorem X4_sent_datagram_sizes fs filepath file_data fc chunk_size fps next
    (k : nat) datagram :
  fs !! filepath = Some file_data →
  tx_result (send_file fs filepath fc chunk_size fps) = Return next →
  tx_sent (send_file fs filepath fc chunk_size fps) !! k = Some datagram →
  0 < chunk_size
  ∧ 8 < Z.of_nat (length datagram) ≤ 8 + chunk_size
  ∧ ((S k < length (tx_sent (send_file fs filepath fc chunk_size fps)))%nat →
     Z.of_nat (length datagram) = 8 + chunk_size).
Proof.
  intros Hfs Hret Hk.
  destruct (send_file_returned_checks _ _ _ _ _ _ _ Hfs Hret)
    as (Hfc & Hcs & Hfps & Htot).
  rewrite (send_file_sends _ _ file_data) in Hk |- * by done.
  cbn [tx_sent] in Hk |- *.
  apply lookup_fragments in Hk as (Hlt & ->).
  assert (0 < chunk_size) as Hpos.
  { apply (ceil_pos_chunk_size (Z.of_nat (length file_data))); lia. }
  pose proof (ceil_bounds (Z.of_nat (length file_data)) chunk_size Hpos) as Hb.
  cbv zeta in Hb.
  set (total := - (- Z.of_nat (length file_data) / chunk_size)) in *.
  unfold fragment. rewrite length_app. change (length (header _ _ _)) with 8%nat.
  pose proof (length_chunk_of file_data chunk_size (Z.of_nat k) Hpos ltac:(lia))
    as Hlen.
  split; [done|]. split; [nia|].
  unfold fragments. rewrite length_fmap, length_range. intros Hnext. nia.
Qed.

Lemma X4_sent_datagram_sizes_witness :
  0 < 2
  ∧ 8 < Z.of_nat (length (header 7 3 1 ++ [x03; x04])) ≤ 8 + 2
  ∧ ((2 < length (tx_sent (send_file {[ "a.ply" := [x01; x02; x03; x04; x05] ]}
                             "a.ply" 7 2 30)))%nat →
     Z.of_nat (length (header 7 3 1 ++ [x03; x04])) = 8 + 2).
Proof.
  exact (X4_sent_datagram_sizes {[ "a.ply" := [x01; x02; x03; x04; x05] ]}
           "a.ply" [x01; x02; x03; x04; x05] 7 2 30 8 1
           (header 7 3 1 ++ [x03; x04]) eq_refl eq_refl eq_refl).
Defined.



(** ** The polling loop *)

Lemma filter_ext_elem {A} (P1 P2 : A → Prop)
    `{!∀ x, Decision (P1 x), !∀ x, Decision (P2 x)} (l : list A) :
  (∀ x, x ∈ l → P1 x ↔ P2 x) → filter P1 l = filter P2 l.
Proof.
  induction l as [|a l IH]; intros Hiff; [done|].
  assert (filter P1 l = filter P2 l) as Hl.
  { apply IH. intros x Hx. apply Hiff. by apply list_elem_of_further. }
  pose proof (Hiff a (list_elem_of_here _ _)) as Ha.
  destruct (decide (P1 a)).
  - rewrite !filter_cons_True by tauto. by rewrite Hl.
  - rewrite !filter_cons_False by tauto. done.
Qed.

(** One step of the pass, unfolded: what the pass over [f :: rest] is in
    terms of the call for [f] and the pass over [rest]. *)
Lemma send_new_files_skip fs f rest st chunk_size fps :
  f ∈ sent_files st →
  send_new_files fs (f :: rest) st chunk_size fps =
    send_new_files fs rest st chunk_size fps.
Proof. intros Hf. cbn [send_new_files]. by rewrite bool_decide_eq_true_2. Qed.

Lemma send_new_files_returns_cons fs f rest st chunk_size fps st' sent :
  f ∉ sent_files st →
  send_new_files fs (f :: rest) st chunk_size fps = (Return st', sent) →
  ∃ next sent_rest,
    tx_result (send_file fs f (frame_counter st) chunk_size fps) = Return next ∧
    send_new_files fs rest (MonitorState ({[f]} ∪ sent_files st) next)
      chunk_size fps = (Return st', sent_rest) ∧
    sent = tx_sent (send_file fs f (frame_counter st) chunk_size fps) ++ sent_rest.
Proof.
  intros Hf. cbn [send_new_files]. rewrite bool_decide_eq_false_2 by done.
  destruct (tx_result (send_file fs f (frame_counter st) chunk_size fps))
    as [next|e] eqn:Hres; [|done].
  destruct (send_new_files fs rest _ chunk_size fps) as [r sent_rest] eqn:Hrest.
  intros [= -> <-]. eauto.
Qed.

(** The frame counter a returning call hands back is the one it was given
    or its increment, and stays below [2^32]. *)
Lemma send_file_next_range fs f fc chunk_size fps next :
  tx_result (send_file fs f fc chunk_size fps) = Return next →
  0 ≤ fc < 2 ^ 32 → 0 ≤ next < 2 ^ 32.
Proof.
  intros Hres Hfc.
  destruct (send_file_returns _ _ _ _ _ _ Hres)
    as [(_ & -> & _)|(_ & _ & -> & _)]; [done|].
  apply Z.mod_pos_bound. lia.
Qed.

Lemma send_new_files_marks fs ply_files : ∀ st chunk_size fps st' sent,
  send_new_files fs ply_files st chunk_size fps = (Return st', sent) →
  sent_files st' = sent_files st ∪ list_to_set ply_files
  ∧ (0 ≤ frame_counter st < 2 ^ 32 → 0 ≤ frame_counter st' < 2 ^ 32).
Proof.
  induction ply_files as [|f rest IH]; intros st chunk_size fps st' sent Hpass.
  - cbn in Hpass. injection Hpass as <- <-. split; [set_solver|done].
  - rewrite list_to_set_cons.
    destruct (decide (f ∈ sent_files st)) as [Hf|Hf].
    + rewrite send_new_files_skip in Hpass by done.
      destruct (IH _ _ _ _ _ Hpass) as [-> Hrange]. split; [set_solver|done].
    + apply send_new_files_returns_cons in Hpass
        as (next & sent_rest & Hres & Hrest & _); [|done].
      destruct (IH _ _ _ _ _ Hrest) as [-> Hrange]. cbn in *.
      split; [set_solver|]. intros Hfc. apply Hrange.
      by eapply send_file_next_range.
Qed.

Lemma send_new_files_nothing_new fs ply_files st chunk_size fps :
  (∀ f, f ∈ ply_files → f ∈ sent_files st) →
  send_new_files fs ply_files st chunk_size fps = (Return st, []).
Proof.
  induction ply_files as [|f rest IH]; intros Hall; [done|].
  rewrite send_new_files_skip by (apply Hall, list_elem_of_here).
  apply IH. intros g Hg. by apply Hall, list_elem_of_further.
Qed.

(** X6.  When a pass over the listing returns, the set of sent files has
    grown by exactly the files of the listing, the ones that could not be
    read included, and a frame counter that was below [2^32] still is. *)
Theorem X6_pass_marks_every_listed_file fs ply_files st chunk_size fps st' sent :
  send_new_files fs ply_files st chunk_size fps = (Return st', sent) →
  sent_files st' = sent_files st ∪ list_to_set ply_files
  ∧ (0 ≤ frame_counter st < 2 ^ 32 → 0 ≤ frame_counter st' < 2 ^ 32).
Proof. apply send_new_files_marks. Qed.

Lemma X6_pass_marks_every_listed_file_witness :
  let fs : gmap string bytes := {[ "a.ply" := [x01; x02; x03] ]} in
  ({[ "a.ply"; "gone.ply" ]} : gset string) = ∅ ∪ list_to_set ["a.ply"; "gone.ply"]
  ∧ (0 ≤ 4294967295 < 2 ^ 32 → 0 ≤ 0 < 2 ^ 32).
Proof.
  exact (X6_pass_marks_every_listed_file {[ "a.ply" := [x01; x02; x03] ]}
           ["a.ply"; "gone.ply"] (MonitorState ∅ 4294967295) 2 30
           (MonitorState {[ "a.ply"; "gone.ply" ]} 0)
           [header 4294967295 2 0 ++ [x01; x02]; header 4294967295 2 1 ++ [x03]]
           eq_refl).
Defined.

(** X7.  A pass that returned has nothing left to do: a second pass over
    the same listing, whatever the files hold by then, sends no datagram
    and leaves the sent set and the frame counter as they are. *)
Theorem X7_second_pass_sends_nothing fs fs' ply_files st chunk_size fps
    chunk_size' fps' st' sent :
  send_new_files fs ply_files st chunk_size fps = (Return st', sent) →
  send_new_files fs' ply_files st' chunk_size' fps' = (Return st', []).
Proof.
  intros Hpass. apply send_new_files_nothing_new. intros f Hf.
  destruct (send_new_files_marks _ _ _ _ _ _ _ Hpass) as [-> _].
  apply elem_of_union. right. by apply elem_of_list_to_set.
Qed.

Lemma X7_second_pass_sends_nothing_witness :
  send_new_files {[ "a.ply" := [x09] ]} ["a.ply"; "gone.ply"]
    (MonitorState {[ "a.ply"; "gone.ply" ]} 1) 8000 30 =
  (Return (MonitorState {[ "a.ply"; "gone.ply" ]} 1), []).
Proof.
  exact (X7_second_pass_sends_nothing {[ "a.ply" := [x01; x02; x03] ]}
           {[ "a.ply" := [x09] ]} ["a.ply"; "gone.ply"] (MonitorState ∅ 0) 2 30
           8000 30 (MonitorState {[ "a.ply"; "gone.ply" ]} 1)
           [header 0 2 0 ++ [x01; x02]; header 0 2 1 ++ [x03]] eq_refl).
Defined.

Lemma new_readable_cons_other fs sent f rest :
  f ∉ rest →
  new_readable fs ({[f]} ∪ sent) rest = new_readable fs sent rest.
Proof.
  intros Hf. unfold new_readable. apply filter_ext_elem. intros g Hg.
  assert (g ≠ f) by (by intros ->). set_solver.
Qed.

(** What a pass sends and where it leaves the frame counter, for a listing
    without repetition: the new readable files are sent one after the
    other, each under the next frame counter. *)
Lemma send_new_files_frames fs ply_files : ∀ st chunk_size fps st' sent,
  NoDup ply_files →
  0 ≤ frame_counter st < 2 ^ 32 →
  send_new_files fs ply_files st chunk_size fps = (Return st', sent) →
  frame_counter st' =
    (frame_counter st +
     Z.of_nat (length (new_readable fs (sent_files st) ply_files))) mod 2 ^ 32
  ∧ sent =
      mjoin (imap (λ j f, tx_sent (send_file fs f
                             ((frame_counter st + Z.of_nat j) mod 2 ^ 32)
                             chunk_size fps))
               (new_readable fs (sent_files st) ply_files)).
Proof.
  induction ply_files as [|f rest IH];
    intros st chunk_size fps st' sent Hnd Hfc Hpass.
  - cbn in Hpass. injection Hpass as <- <-. cbn.
    rewrite Z.add_0_r, Z.mod_small by done. done.
  - apply NoDup_cons in Hnd as [Hf_rest Hnd].
    destruct (decide (f ∈ sent_files st)) as [Hf|Hf].
    { rewrite send_new_files_skip in Hpass by done.
      unfold new_readable. rewrite filter_cons_False by tauto.
      by apply IH. }
    apply send_new_files_returns_cons in Hpass
      as (next & sent_rest & Hres & Hrest & ->); [|done].
    pose proof (send_file_next_range _ _ _ _ _ _ Hres Hfc) as Hnext.
    destruct (IH (MonitorState ({[f]} ∪ sent_files st) next) _ _ _ _
                Hnd Hnext Hrest) as [Hcount Hsent].
    cbn [frame_counter sent_files] in Hcount, Hsent.
    rewrite new_readable_cons_other in Hcount, Hsent by done.
    destruct (send_file_returns _ _ _ _ _ _ Hres)
      as [(Hnone & -> & Hnil)|(file_data & Hsome & -> & _)].
    + unfold new_readable at 1 2.
      rewrite filter_cons_False by (rewrite Hnone; intros [_ [? [=]]]).
      fold (new_readable fs (sent_files st) rest). by rewrite Hnil.
    + unfold new_readable at 1 2.
      rewrite filter_cons_True by (rewrite Hsome; eauto).
      fold (new_readable fs (sent_files st) rest).
      cbn [length]. rewrite imap_cons. cbn [mjoin list_join].
      rewrite Z.add_0_r, (Z.mod_small (frame_counter st)) by done.
      split.
      * rewrite Hcount, Zplus_mod_idemp_l. f_equal. lia.
      * rewrite Hsent. do 2 f_equal. apply imap_ext. intros j g _. cbn.
        rewrite Zplus_mod_idemp_l. do 3 f_equal. lia.
Qed.

(** X8.  A pass over a listing without repetition that returns has sent,
    in the order of the listing, the frames of the files that were new and
    readable, the first under the frame counter it started with and each
    next one under the next counter (modulo [2^32]); the counter it leaves
    has advanced by the number of those files.  Files that could not be
    read use up no counter. *)
Theorem X8_pass_sends_consecutive_frames fs ply_files st chunk_size fps st' sent :
  NoDup ply_files →
  0 ≤ frame_counter st < 2 ^ 32 →
  send_new_files fs ply_files st chunk_size fps = (Return st', sent) →
  frame_counter st' =
    (frame_counter st +
     Z.of_nat (length (new_readable fs (sent_files st) ply_files))) mod 2 ^ 32
  ∧ sent =
      mjoin (imap (λ j f, tx_sent (send_file fs f
                             ((frame_counter st + Z.of_nat j) mod 2 ^ 32)
                             chunk_size fps))
               (new_readable fs (sent_files st) ply_files)).
Proof. apply send_new_files_frames. Qed.

Lemma X8_pass_sends_consecutive_frames_witness :
  let fs : gmap string bytes :=
    {[ "a.ply" := [x01; x02; x03]; "c.ply" := [x04] ]} in
  new_readable fs {[ "old.ply" ]} ["a.ply"; "b.ply"; "c.ply"; "old.ply"] =
    ["a.ply"; "c.ply"]
  ∧ send_new_files fs ["a.ply"; "b.ply"; "c.ply"; "old.ply"]
      (MonitorState {[ "old.ply" ]} 4294967295) 2 30 =
    (Return (MonitorState {[ "a.ply"; "b.ply"; "c.ply"; "old.ply" ]} 1),
     [header 4294967295 2 0 ++ [x01; x02]; header 4294967295 2 1 ++ [x03];
      header 0 1 0 ++ [x04]])
  ∧ 1 = (4294967295 + 2) mod 2 ^ 32.
Proof.
  cbv zeta. split; [reflexivity|]. split; [reflexivity|].
  refine (proj1 (X8_pass_sends_consecutive_frames
    {[ "a.ply" := [x01; x02; x03]; "c.ply" := [x04] ]}
    ["a.ply"; "b.ply"; "c.ply"; "old.ply"]
    (MonitorState {[ "old.ply" ]} 4294967295) 2 30
    (MonitorState {[ "a.ply"; "b.ply"; "c.ply"; "old.ply" ]} 1)
    [header 4294967295 2 0 ++ [x01; x02]; header 4294967295 2 1 ++ [x03];
     header 0 1 0 ++ [x04]] _ _ eq_refl)).
  - by apply (bool_decide_unpack _).
  - cbn. lia.
Defined.



(** ** One call of [datagram_received] *)

Lemma reassemble_other now fc total idx chunk_data d k :
  k ≠ fc → rx_dict (reassemble now fc total idx chunk_data d) !! k = d !! k.
Proof.
  intros Hk. unfold reassemble.
  destruct (chunks _ !! Z.to_nat idx) as [slot|]; cbn [rx_dict].
  - case_bool_decide; [destruct (join _)|]; cbn [rx_dict];
      by rewrite ?lookup_insert_ne, ?lookup_delete_ne by done.
  - by rewrite lookup_insert_ne by done.
Qed.

Lemma reassemble_emits now fc total idx chunk_data d k frame :
  rx_result (reassemble now fc total idx chunk_data d) = Return (Some (k, frame)) →
  k = fc ∧ rx_dict (reassemble now fc total idx chunk_data d) = delete fc d.
Proof.
  unfold reassemble.
  destruct (chunks _ !! Z.to_nat idx) as [slot|]; [|done].
  case_bool_decide; [|done]. destruct (join _); [|done].
  cbn. by intros [= <- _].
Qed.

(** X10.  When a call of [datagram_received] hands over a frame, whatever
    the table held, the frame carries the frame counter of the datagram of
    that call, the datagram had a full header that passed the checks, and
    the call has removed the entry of that frame counter and touched no
    other: the table it leaves is the old one without that key. *)
Theorem X10_completed_frame_leaves_the_table now data d k frame :
  rx_result (datagram_received now data d) = Return (Some (k, frame)) →
  k = frame_counter_of data
  ∧ (8 ≤ length data)%nat
  ∧ 0 < total_chunks_of data
  ∧ chunk_idx_of data < total_chunks_of data
  ∧ rx_dict (datagram_received now data d) = delete k d.
Proof.
  unfold datagram_received. case_bool_decide as Hlen; [done|].
  fold (frame_counter_of data) (total_chunks_of data) (chunk_idx_of data).
  case_bool_decide as Hbad; [done|].
  intros (-> & Hdel)%reassemble_emits. repeat split; (done || lia).
Qed.

Lemma X10_completed_frame_leaves_the_table_witness :
  let d : gmap Z frame_info :=
    {[ 7 := FrameInfo 2 [Some [x41]; None] 1 3;
       8 := FrameInfo 2 [None; Some [x43]] 1 9 ]} in
  7 = frame_counter_of (header 7 2 1 ++ [x42])
  ∧ (8 ≤ length (header 7 2 1 ++ [x42]))%nat
  ∧ 0 < total_chunks_of (header 7 2 1 ++ [x42])
  ∧ chunk_idx_of (header 7 2 1 ++ [x42]) < total_chunks_of (header 7 2 1 ++ [x42])
  ∧ rx_dict (datagram_received 10 (header 7 2 1 ++ [x42]) d) = delete 7 d.
Proof.
  exact (X10_completed_frame_leaves_the_table 10 (header 7 2 1 ++ [x42])
           {[ 7 := FrameInfo 2 [Some [x41]; None] 1 3;
              8 := FrameInfo 2 [None; Some [x43]] 1 9 ]} 7 [x41; x42] eq_refl).
Defined.

Lemma datagram_received_other now data d k :
  k ≠ frame_counter_of data →
  rx_dict (datagram_received now data d) !! k = d !! k.
Proof.
  intros Hk. unfold datagram_received.
  case_bool_decide; [done|]. case_bool_decide; [done|].
  by apply reassemble_other.
Qed.

(** X11.  A call of [datagram_received] leaves every entry of another
    frame counter than the one in its datagram exactly as it was, whatever
    the datagram and whatever the table, also when the call raises. *)
Theorem X11_other_frames_untouched now data d k :
  k ≠ frame_counter_of data →
  rx_dict (datagram_received now data d) !! k = d !! k.
Proof. apply datagram_received_other. Qed.

Lemma X11_other_frames_untouched_witness :
  let d : gmap Z frame_info :=
    {[ 7 := FrameInfo 2 [Some [x41]; None] 1 3;
       8 := FrameInfo 2 [None; Some [x43]] 1 9 ]} in
  rx_dict (datagram_received 10 (header 7 2 1 ++ [x42]) d) !! 8 =
    Some (FrameInfo 2 [None; Some [x43]] 1 9).
Proof.
  refine (X11_other_frames_untouched 10 (header 7 2 1 ++ [x42])
           {[ 7 := FrameInfo 2 [Some [x41]; None] 1 3;
              8 := FrameInfo 2 [None; Some [x43]] 1 9 ]} 8 _).
  vm_compute. discriminate.
Defined.

(** ** What the table can hold *)

Lemma from_bytes_slice_bound (data : bytes) start stop (width : nat) :
  (Z.to_nat stop - Z.to_nat start ≤ width)%nat →
  0 ≤ from_bytes (slice data start stop) < 256 ^ Z.of_nat width.
Proof.
  intros Hw. split; [apply from_bytes_nonneg|].
  eapply Z.lt_le_trans; [apply from_bytes_bound|].
  apply Z.pow_le_mono_r; [lia|]. unfold slice. rewrite length_take. lia.
Qed.

(** Whatever bytes arrive, the fields read off the header fit their width. *)
Lemma header_fields_bounded data :
  0 ≤ frame_counter_of data < 2 ^ 32
  ∧ 0 ≤ total_chunks_of data < 65536
  ∧ 0 ≤ chunk_idx_of data < 65536.
Proof.
  unfold frame_counter_of, total_chunks_of, chunk_idx_of.
  pose proof (from_bytes_slice_bound data 0 4 4 ltac:(lia)).
  pose proof (from_bytes_slice_bound data 4 6 2 ltac:(lia)).
  pose proof (from_bytes_slice_bound data 6 8 2 ltac:(lia)).
  done.
Qed.

Lemma started_live (P : Z → frame_info → Prop) now fc total idx chunk_data d log :
  map_Forall P d →
  (total ≠ 1 → P fc (first_chunk_info now total idx chunk_data)) →
  map_Forall P (rx_dict (started now fc total idx chunk_data d log)).
Proof.
  intros Hd Hnew. unfold started. case_bool_decide; cbn.
  - by apply map_Forall_delete.
  - apply map_Forall_insert_2; auto.
Qed.

(** The bounds every stored entry keeps: the key is a 32-bit number, the
    announced total is between 2 and 65535, at least one chunk is there. *)
Lemma reassemble_bounds now fc total idx chunk_data d :
  let P := λ (k : Z) info,
    0 ≤ k < 2 ^ 32 ∧ 2 ≤ total_chunks info < 65536 ∧ 1 ≤ received_count info in
  table_ok d → map_Forall P d →
  0 ≤ fc < 2 ^ 32 → 0 < total < 65536 → 0 ≤ idx < total →
  map_Forall P (rx_dict (reassemble now fc total idx chunk_data d)).
Proof.
  intros P Hok Hd Hfc Htot Hidx.
  assert (total ≠ 1 → P fc (first_chunk_info now total idx chunk_data)) as Hnew.
  { intros Hne. unfold P. cbn. lia. }
  destruct (d !! fc) as [info|] eqn:Hlook.
  2:{ rewrite reassemble_absent by (done || lia). by apply started_live. }
  destruct (decide (total_chunks info = total)) as [Heq|Hne].
  2:{ rewrite (reassemble_mismatch _ _ _ _ _ _ info) by (done || lia).
      by apply started_live. }
  destruct (Hok _ _ Hlook) as [Hlen Hcount Hopen].
  destruct (Hd _ _ Hlook) as (_ & Ht & Hc).
  destruct (chunks info !! Z.to_nat idx) as [[p|]|] eqn:Hslot.
  - by rewrite (reassemble_duplicate _ _ _ _ _ _ info p) by (done || lia).
  - rewrite (reassemble_fill _ _ _ _ _ _ info) by done. cbv zeta.
    case_bool_decide; [destruct (join _)|]; cbn [rx_dict];
      try (by apply map_Forall_delete);
      (apply map_Forall_insert_2; [unfold P; cbn; lia|done]).
  - apply lookup_ge_None in Hslot. lia.
Qed.

Lemma cleanup_tick_Forall (P : Z → frame_info → Prop) now frame_timeout d :
  map_Forall P d → map_Forall P (cleanup_tick now frame_timeout d).1.
Proof.
  intros Hd k info Hk. rewrite lookup_cleanup_tick in Hk.
  destruct (d !! k) as [info'|] eqn:Hk'; [|done].
  case_bool_decide; [done|]. injection Hk as <-. by eapply Hd.
Qed.

(** X12.  In every table the receiver can hold, every entry sits under a
    key below [2^32], announces between 2 and 65535 chunks, has exactly one
    slot per announced chunk, and holds at least one chunk and not all of
    them.  A frame announced as a single chunk is never stored. *)
Theorem X12_stored_entries_are_bounded frame_timeout d k info :
  reachable frame_timeout d →
  d !! k = Some info →
  0 ≤ k < 2 ^ 32
  ∧ 2 ≤ total_chunks info ≤ 65535
  ∧ Z.of_nat (length (chunks info)) = total_chunks info
  ∧ 1 ≤ received_count info < total_chunks info.
Proof.
  intros Hreach Hk.
  destruct (reachable_ok _ _ Hreach _ _ Hk) as [Hlen _ Hopen].
  assert (map_Forall (λ (k : Z) info,
            0 ≤ k < 2 ^ 32 ∧ 2 ≤ total_chunks info < 65536 ∧
            1 ≤ received_count info) d) as Hall.
  { clear k info Hk Hlen Hopen.
    induction Hreach as [|now data d Hreach IH|now d Hreach IH].
    - apply map_Forall_empty.
    - unfold datagram_received.
      case_bool_decide; [done|]. case_bool_decide as Hbad; [done|].
      destruct (header_fields_bounded data) as (Hf & Ht & Hx).
      unfold frame_counter_of, total_chunks_of, chunk_idx_of in Hf, Ht, Hx.
      apply reassemble_bounds; [by eapply reachable_ok|done|lia..].
    - by apply cleanup_tick_Forall. }
  destruct (Hall _ _ Hk) as (Hkey & Ht & Hc). lia.
Qed.

Lemma X12_stored_entries_are_bounded_witness :
  0 ≤ 7 < 2 ^ 32
  ∧ 2 ≤ 3 ≤ 65535
  ∧ Z.of_nat (length [None; Some [x41; x42]; @None bytes]) = 3
  ∧ 1 ≤ 1 < 3.
Proof.
  refine (X12_stored_entries_are_bounded 5
            (rx_dict (datagram_received 3 (header 7 3 1 ++ [x41; x42]) ∅)) 7
            (FrameInfo 3 [None; Some [x41; x42]; None] 1 3) _ eq_refl).
  apply reachable_datagram, reachable_init.
Defined.

(** ** More on the sweep *)



Lemma filter_none {A} (P : A → Prop) `{!∀ x, Decision (P x)} (l : list A) :
  (∀ x, x ∈ l → ¬ P x) → filter P l = [].
Proof.
  induction l as [|a l IH]; intros Hnone; [done|].
  rewrite filter_cons_False by apply Hnone, list_elem_of_here.
  apply IH. intros x Hx. by apply Hnone, list_elem_of_further.
Qed.


(** X14.  A sweep leaves nothing behind that a sweep at the same or an
    earlier clock reading would discard: run on its own result, with the
    same timeout, it removes no entry and logs no warning. *)
Theorem X14_sweep_is_idempotent now now' frame_timeout d :
  now' ≤ now →
  cleanup_tick now' frame_timeout (cleanup_tick now frame_timeout d).1 =
    ((cleanup_tick now frame_timeout d).1, []).
Proof.
  intros Hle.
  assert (stale_items now' frame_timeout (cleanup_tick now frame_timeout d).1 = [])
    as Hnone.
  { unfold stale_items. apply filter_none.
    intros [k info] Hin%elem_of_map_to_list. cbn.
    rewrite lookup_cleanup_tick in Hin.
    destruct (d !! k) as [info'|]; [|done].
    case_bool_decide as Hfresh; [done|]. injection Hin as <-.
    unfold stale. rewrite bool_decide_eq_false_2; [done|]. lia. }
  unfold cleanup_tick at 1. unfold to_remove. by rewrite Hnone.
Qed.

Lemma X14_sweep_is_idempotent_witness :
  let d : gmap Z frame_info :=
    {[ 7 := FrameInfo 3 [Some [x41]; Some [x42]; None] 2 3;
       8 := FrameInfo 2 [None; Some [x43]] 1 9 ]} in
  cleanup_tick 10 5 (cleanup_tick 10 5 d).1 = ((cleanup_tick 10 5 d).1, []).
Proof.
  refine (X14_sweep_is_idempotent 10 10 5
    {[ 7 := FrameInfo 3 [Some [x41]; Some [x42]; None] 2 3;
       8 := FrameInfo 2 [None; Some [x43]] 1 9 ]} _).
  lia.
Defined.



(** X16.  Nothing remembers a completed frame.  A datagram that announces
    a single chunk, for a frame counter with no entry, hands its payload
    over as a frame at once and leaves the table as it was; so every
    further arrival of that datagram hands the same frame over again. *)
Theorem X16_single_chunk_frame_is_emitted_on_every_replay times data d :
  (8 ≤ length data)%nat →
  total_chunks_of data = 1 →
  chunk_idx_of data = 0 →
  d !! frame_counter_of data = None →
  deliver ((λ now, (now, data)) <$> times) d =
    (d, (λ _, (frame_counter_of data, drop 8 data)) <$> times, []).
Proof.
  intros Hlen Htot Hidx Hd. induction times as [|now times IH]; [done|].
  rewrite !fmap_cons. cbn [deliver].
  rewrite datagram_received_valid by lia.
  rewrite reassemble_absent by (done || lia). unfold started.
  rewrite bool_decide_eq_true_2 by done. cbn [rx_dict rx_result].
  by rewrite delete_id, IH.
Qed.

Lemma X16_single_chunk_frame_is_emitted_on_every_replay_witness :
  deliver [(1, header 7 1 0 ++ [x41]); (2, header 7 1 0 ++ [x41])] ∅ =
    (∅, [(7, [x41]); (7, [x41])], []).
Proof.
  refine (X16_single_chunk_frame_is_emitted_on_every_replay [1; 2]
            (header 7 1 0 ++ [x41]) ∅ _ eq_refl eq_refl eq_refl).
  cbn. lia.
Defined.

(** ** Chunks that arrive more than once, frames that stay incomplete *)

Lemma deliver_app arrivals1 arrivals2 d :
  deliver (arrivals1 ++ arrivals2) d =
    let '(d1, frames1, raised1) := deliver arrivals1 d in
    let '(d2, frames2, raised2) := deliver arrivals2 d1 in
    (d2, frames1 ++ frames2, raised1 ++ raised2).
Proof.
  revert d. induction arrivals1 as [|[now data] arrivals1 IH]; intros d.
  - cbn. by destruct (deliver arrivals2 d) as [[d2 frames2] raised2].
  - cbn [app deliver]. rewrite IH.
    destruct (deliver arrivals1 _) as [[d1 frames1] raised1].
    destruct (rx_result _) as [[frame|]|e]; cbn;
      by destruct (deliver arrivals2 d1) as [[d2 frames2] raised2].
Qed.

(** Datagrams that are all among [f <$> l] are the images of a list of
    elements of [l]. *)
Lemma fmap_preimage {A B} (f : A → B) (l : list A) (bs : list B) :
  (∀ b, b ∈ bs → b ∈ f <$> l) →
  ∃ xs, bs = f <$> xs ∧ ∀ x, x ∈ xs → x ∈ l.
Proof.
  induction bs as [|b bs IH]; intros Hin.
  - exists []. split; [done|]. by intros x ?%elem_of_nil.
  - destruct IH as (xs & -> & Hxs).
    { intros b' Hb'. by apply Hin, list_elem_of_further. }
    destruct (proj1 (list_elem_of_fmap _ _ _) (Hin b (list_elem_of_here _ _)))
      as (x & -> & Hx).
    exists (x :: xs). split; [done|].
    intros x' [->|Hx']%elem_of_cons; auto.
Qed.

Section gathering.
Variables (file_data : bytes) (fc chunk_size total : Z).
Hypothesis Hfc : 0 ≤ fc < 2 ^ 32.
Hypothesis Htotal : 0 < total < 65536.

Lemma fragment_idx i :
  0 ≤ i < total → chunk_idx_of (fragment file_data fc chunk_size total i) = i.
Proof.
  intros Hi. unfold fragment.
  by destruct (header_parses fc total i (chunk_of file_data chunk_size i))
    as (_ & _ & _ & Hx & _); [lia..|].
Qed.

Lemma fewer_than_total got m :
  NoDup got → (∀ i, i ∈ got → 0 ≤ i < total) →
  0 ≤ m < total → m ∉ got →
  Z.of_nat (length got) < total.
Proof.
  intros Hnd Hin Hm Hout.
  assert (m :: got ⊆+ range total) as Hsub.
  { apply NoDup_submseteq; [by apply NoDup_cons|].
    intros i [->|Hi]%elem_of_cons; apply elem_of_range; auto. }
  apply submseteq_length in Hsub. rewrite length_range in Hsub.
  cbn [length] in Hsub. lia.
Qed.

Lemma deliver_from_absent now i rest d t :
  d !! fc = None → 0 ≤ i < total →
  deliver ((now, fragment file_data fc chunk_size total i) :: rest) d =
  deliver ((now, fragment file_data fc chunk_size total i) :: rest)
    (<[fc := FrameInfo total (empty_slots total) 0 t]> d).
Proof.
  intros Hd Hi. symmetry. apply deliver_cons_ext.
  rewrite !(fragment_received file_data fc chunk_size total) by done.
  apply reassemble_absent_as_empty; (done || lia).
Qed.

(** The table holds the chunks [got]; chunks [idxs] arrive, in any order
    and any number of times, and one chunk of the frame is in neither: the
    entry gathers the new chunks, no frame is handed over and no call
    raises. *)
Lemma deliver_gathering idxs : ∀ arrivals got info d m,
  arrivals.*2 = fragment file_data fc chunk_size total <$> idxs →
  NoDup got →
  collected file_data chunk_size total got info →
  (∀ i, i ∈ got ++ idxs → 0 ≤ i < total) →
  0 ≤ m < total → m ∉ got ++ idxs →
  ∃ got' info',
    deliver arrivals (<[fc := info]> d) = (<[fc := info']> d, [], [])
    ∧ NoDup got'
    ∧ collected file_data chunk_size total got' info'
    ∧ ∀ i, i ∈ got' ↔ i ∈ got ++ idxs.
Proof.
  induction idxs as [|i idxs IH];
    intros arrivals got info d m Harr Hnd Hcol Hin Hm Hout.
  - apply fmap_nil_inv in Harr as ->. exists got, info.
    rewrite app_nil_r. done.
  - destruct arrivals as [|[now data] arrivals]; [done|].
    change (data :: arrivals.*2 =
              fragment file_data fc chunk_size total i ::
                (fragment file_data fc chunk_size total <$> idxs)) in Harr.
    injection Harr as -> Harr.
    assert (0 ≤ i < total) as Hi.
    { apply Hin, elem_of_app. right. apply list_elem_of_here. }
    pose proof Hcol as (Htot & Hclen & Hcount & Hslots).
    cbn [deliver]. rewrite fragment_received by done.
    destruct (decide (i ∈ got)) as [Hold|Hnew].
    + assert (Z.of_nat (length got) < total) as Hfew.
      { apply (fewer_than_total got m); try done.
        * intros j Hj. apply Hin, elem_of_app. by left.
        * intros Hg. apply Hout, elem_of_app. by left. }
      rewrite (reassemble_duplicate _ _ _ _ _ _ info
                 (chunk_of file_data chunk_size i));
        [|apply lookup_insert_eq|done|by rewrite Hslots, decide_True by done|lia].
      cbn [rx_dict rx_result].
      destruct (IH arrivals got info d m Harr Hnd Hcol)
        as (got' & info' & -> & Hnd' & Hcol' & Hmem); try done.
      * intros j [Hj|Hj]%elem_of_app; apply Hin, elem_of_app; auto.
        right. by apply list_elem_of_further.
      * intros [Hj|Hj]%elem_of_app; apply Hout, elem_of_app; auto.
        right. by apply list_elem_of_further.
      * exists got', info'. split; [done|]. split; [done|]. split; [done|].
        intros j. rewrite Hmem, !elem_of_app, elem_of_cons.
        split; [tauto|]. intros [?|[->|?]]; auto.
    + assert (Z.of_nat (length (i :: got)) < total) as Hfew.
      { apply (fewer_than_total (i :: got) m); try done.
        * by apply NoDup_cons.
        * intros j [->|Hj]%elem_of_cons; [done|].
          apply Hin, elem_of_app. by left.
        * intros [->|Hg]%elem_of_cons; apply Hout, elem_of_app.
          -- right. apply list_elem_of_here.
          -- by left. }
      cbn [length] in Hfew.
      rewrite (reassemble_fill _ _ _ _ _ _ info);
        [|apply lookup_insert_eq|done|by rewrite Hslots, decide_False by done].
      cbv zeta. rewrite bool_decide_eq_false_2 by lia.
      cbn [rx_dict rx_result]. rewrite insert_insert_eq.
      pose proof (collected_insert _ _ _ _ _ i now Hcol Hi Hnew) as Hcol1.
      destruct (IH arrivals (i :: got) _ d m Harr
                  ltac:(by apply NoDup_cons) Hcol1)
        as (got' & info' & -> & Hnd' & Hcol' & Hmem); try done.
      * intros j Hj. apply Hin. revert Hj.
        rewrite !elem_of_app, !elem_of_cons. tauto.
      * intros Hj. apply Hout. revert Hj.
        rewrite !elem_of_app, !elem_of_cons. tauto.
      * exists got', info'. split; [done|]. split; [done|]. split; [done|].
        intros j. rewrite Hmem, !elem_of_app, !elem_of_cons. tauto.
Qed.
End gathering.

(** What a returning call has sent, as indexed fragments. *)
Lemma send_file_sent_fragments fs filepath file_data fc chunk_size fps next :
  fs !! filepath = Some file_data →
  tx_result (send_file fs filepath fc chunk_size fps) = Return next →
  let total := - ((- Z.of_nat (length file_data)) / chunk_size) in
  0 ≤ fc < 2 ^ 32 ∧ 0 ≤ total < 65536 ∧
  tx_sent (send_file fs filepath fc chunk_size fps) =
    fragment file_data fc chunk_size total <$> range total ∧
  (0 < total →
   concat (chunk_of file_data chunk_size <$> range total) = file_data).
Proof.
  intros Hfs Hret total.
  destruct (send_file_returned_checks _ _ _ _ _ _ _ Hfs Hret)
    as (Hfc & Hcs & Hfps & Htot).
  rewrite (send_file_sends _ _ file_data) by done.
  repeat split; try done; try lia.
  intros Hpos. apply concat_chunk_of.
  apply (ceil_pos_chunk_size (Z.of_nat (length file_data))); (done || lia).
Qed.

Lemma fragment_inj file_data fc chunk_size total i j :
  0 ≤ fc < 2 ^ 32 → 0 < total < 65536 →
  0 ≤ i < total → 0 ≤ j < total →
  fragment file_data fc chunk_size total i =
    fragment file_data fc chunk_size total j →
  i = j.
Proof.
  intros Hfc Htot Hi Hj Heq.
  rewrite <- (fragment_idx file_data fc chunk_size total Hfc Htot i Hi).
  rewrite <- (fragment_idx file_data fc chunk_size total Hfc Htot j Hj).
  by rewrite Heq.
Qed.



(** The last chunk: the table holds all the other chunks of the frame. *)
Lemma deliver_last_chunk file_data fc chunk_size total now m got info d :
  0 ≤ fc < 2 ^ 32 → 0 < total < 65536 →
  concat (chunk_of file_data chunk_size <$> range total) = file_data →
  NoDup got →
  collected file_data chunk_size total got info →
  0 ≤ m < total → m ∉ got →
  (∀ i, i ∈ got → 0 ≤ i < total) →
  (∀ i, 0 ≤ i < total → i = m ∨ i ∈ got) →
  d !! fc = None →
  deliver [(now, fragment file_data fc chunk_size total m)] (<[fc := info]> d) =
    (d, [(fc, file_data)], []).
Proof.
  intros Hfc Htot Hconcat Hnd Hcol Hm Hout Hin Hall Hd.
  apply (deliver_collecting file_data fc chunk_size total Hfc Htot Hconcat
           [m] _ got); try done.
  apply NoDup_Permutation; [|apply NoDup_range|].
  - apply NoDup_app. split; [done|]. split; [|apply NoDup_singleton].
    intros i Hi ->%list_elem_of_singleton. done.
  - intros i. rewrite elem_of_app, list_elem_of_singleton, elem_of_range.
    split; [intros [Hi| ->]; auto|]. intros Hi. destruct (Hall i Hi); auto.
Qed.

(** X18.  A frame is handed over with the arrival of its last missing
    chunk, however the others came.  After a call of [send_file] that
    returned, on a receiver with no entry for its frame counter: when every
    datagram of the call but one has arrived, in any order and any number
    of times each, and then that one arrives, exactly one frame has been
    handed over, by the last call; it carries the frame counter and the
    bytes of the file; no call has raised and the table is as before. *)
Theorem X18_frame_completes_with_the_last_missing_chunk fs filepath file_data
    fc chunk_size fps next earlier now last d :
  fs !! filepath = Some file_data →
  tx_result (send_file fs filepath fc chunk_size fps) = Return next →
  d !! fc = None →
  last ∈ tx_sent (send_file fs filepath fc chunk_size fps) →
  (∀ a, a ∈ tx_sent (send_file fs filepath fc chunk_size fps) →
     a = last ∨ a ∈ earlier.*2) →
  (∀ a, a ∈ earlier.*2 →
     a ∈ tx_sent (send_file fs filepath fc chunk_size fps) ∧ a ≠ last) →
  (deliver earlier d).1.2 = []
  ∧ deliver (earlier ++ [(now, last)]) d = (d, [(fc, file_data)], []).
Proof.
  intros Hfs Hret Hd Hlast Hcover Hearlier.
  destruct (send_file_sent_fragments _ _ _ _ _ _ _ Hfs Hret)
    as (Hfc & Htot & Hsent & Hconcat).
  rewrite Hsent in Hlast, Hcover, Hearlier.
  set (total := - (- Z.of_nat (length file_data) / chunk_size)) in *.
  apply list_elem_of_fmap in Hlast as (m & -> & Hm%elem_of_range).
  assert (0 < total < 65536) as Htotal by lia.
  specialize (Hconcat ltac:(lia)).
  destruct (fmap_preimage (fragment file_data fc chunk_size total) (range total)
              (earlier.*2)) as (idxs & Harr & Hidxs).
  { intros a Ha. by apply Hearlier. }
  assert (∀ i, i ∈ idxs → 0 ≤ i < total) as Hrange.
  { intros i Hi. by apply elem_of_range, Hidxs. }
  assert (m ∉ idxs) as Hout.
  { intros Hin. destruct (Hearlier (fragment file_data fc chunk_size total m));
      [|done]. rewrite Harr. by apply list_elem_of_fmap_2. }
  assert (∀ i, 0 ≤ i < total → i = m ∨ i ∈ idxs) as Hall.
  { intros i Hi.
    destruct (Hcover (fragment file_data fc chunk_size total i)) as [Heq|Hin].
    - by apply list_elem_of_fmap_2, elem_of_range.
    - left. by apply (fragment_inj file_data fc chunk_size total).
    - right. rewrite Harr in Hin.
      apply list_elem_of_fmap in Hin as (j & Heq & Hj).
      by rewrite (fragment_inj file_data fc chunk_size total i j Hfc Htotal Hi
                    (Hrange j Hj) Heq). }
  destruct earlier as [|[now0 data0] rest].
  { split; [done|]. destruct idxs; [|done]. cbn [app].
    rewrite (deliver_from_absent file_data fc chunk_size total Hfc Htotal
               now m [] d now) by done.
    apply (deliver_last_chunk file_data fc chunk_size total now m []);
      try done.
    - apply NoDup_nil_2.
    - apply collected_empty. }
  destruct idxs as [|i0 idxs]; [done|].
  assert (data0 = fragment file_data fc chunk_size total i0) as ->
    by (by injection Harr).
  assert (0 ≤ i0 < total) as Hi0 by apply Hrange, list_elem_of_here.
  destruct (deliver_gathering file_data fc chunk_size total Hfc Htotal
              (i0 :: idxs) ((now0, fragment file_data fc chunk_size total i0) :: rest)
              [] (FrameInfo total (empty_slots total) 0 now0) d m)
    as (got' & info' & Hgather & Hnd' & Hcol' & Hmem); try done.
  { apply NoDup_nil_2. }
  { apply collected_empty. }
  split.
  - rewrite (deliver_from_absent file_data fc chunk_size total Hfc Htotal
               now0 i0 rest d now0) by done.
    by rewrite Hgather.
  - change (((now0, fragment file_data fc chunk_size total i0) :: rest)
              ++ [(now, fragment file_data fc chunk_size total m)])
      with ((now0, fragment file_data fc chunk_size total i0)
              :: (rest ++ [(now, fragment file_data fc chunk_size total m)])).
    rewrite (deliver_from_absent file_data fc chunk_size total Hfc Htotal
               now0 i0 _ d now0) by done.
    change ((now0, fragment file_data fc chunk_size total i0)
              :: (rest ++ [(now, fragment file_data fc chunk_size total m)]))
      with (((now0, fragment file_data fc chunk_size total i0) :: rest)
              ++ [(now, fragment file_data fc chunk_size total m)]).
    rewrite deliver_app, Hgather.
    rewrite (deliver_last_chunk file_data fc chunk_size total now m got' info' d);
      try done.
    + intros Hin. by apply Hout, Hmem.
    + intros i Hi. by apply Hrange, Hmem.
    + intros i Hi. destruct (Hall i Hi); [by left|]. right. by apply Hmem.
Qed.

Lemma X18_frame_completes_with_the_last_missing_chunk_witness :
  let earlier := [(10, header 7 3 2 ++ [x05]); (11, header 7 3 0 ++ [x01; x02]);
                  (12, header 7 3 2 ++ [x05])] in
  (deliver earlier ∅).1.2 = []
  ∧ deliver (earlier ++ [(13, header 7 3 1 ++ [x03; x04])]) ∅ =
      (∅, [(7, [x01; x02; x03; x04; x05])], []).
Proof.
  cbv zeta.
  refine (X18_frame_completes_with_the_last_missing_chunk
            {[ "a.ply" := [x01; x02; x03; x04; x05] ]} "a.ply"
            [x01; x02; x03; x04; x05] 7 2 30 8 _ 13
            (header 7 3 1 ++ [x03; x04]) ∅ eq_refl eq_refl eq_refl _ _ _).
  - right. left.
  - intros a Ha. vm_compute in Ha |- *.
    apply elem_of_cons in Ha as [->|Ha]; [right; do 1 right; left|].
    apply elem_of_cons in Ha as [->|Ha]; [by left|].
    apply list_elem_of_singleton in Ha as ->. right. left.
  - intros a Ha. vm_compute in Ha |- *.
    apply elem_of_cons in Ha as [->|Ha]; [split; [do 2 right; left|by intros [=]]|].
    apply elem_of_cons in Ha as [->|Ha]; [split; [left|by intros [=]]|].
    apply list_elem_of_singleton in Ha as ->.
    split; [do 2 right; left|by intros [=]].
Defined.

(** ** Frames do not interfere *)

Lemma deliver_cons now data rest d :
  deliver ((now, data) :: rest) d =
    let run := datagram_received now data d in
    let r := deliver rest (rx_dict run) in
    (r.1.1,
     match rx_result run with Return (Some frame) => frame :: r.1.2 | _ => r.1.2 end,
     match rx_result run with Raise e => e :: r.2 | _ => r.2 end).
Proof.
  cbn [deliver]. cbv zeta.
  destruct (deliver rest _) as [[d' frames] raised].
  by destruct (rx_result _) as [[frame|]|e].
Qed.

(** What [reassemble] does with the entry of its frame counter, and what it
    hands over, depends on the table through that entry only. *)
Lemma reassemble_local now fc total idx chunk_data d1 d2 :
  d1 !! fc = d2 !! fc →
  rx_result (reassemble now fc total idx chunk_data d1) =
    rx_result (reassemble now fc total idx chunk_data d2)
  ∧ rx_dict (reassemble now fc total idx chunk_data d1) !! fc =
      rx_dict (reassemble now fc total idx chunk_data d2) !! fc.
Proof.
  intros Heq. unfold reassemble. rewrite Heq.
  destruct (chunks _ !! Z.to_nat idx) as [slot|]; cbn [rx_dict rx_result].
  - case_bool_decide; [destruct (join _)|]; cbn [rx_dict rx_result];
      by rewrite ?lookup_insert_eq, ?lookup_delete_eq.
  - by rewrite !lookup_insert_eq.
Qed.

Lemma datagram_received_local now data d1 d2 :
  d1 !! frame_counter_of data = d2 !! frame_counter_of data →
  rx_result (datagram_received now data d1) =
    rx_result (datagram_received now data d2)
  ∧ rx_dict (datagram_received now data d1) !! frame_counter_of data =
      rx_dict (datagram_received now data d2) !! frame_counter_of data.
Proof.
  intros Heq. unfold datagram_received.
  case_bool_decide; [done|]. case_bool_decide; [done|].
  by apply reassemble_local.
Qed.

Lemma datagram_received_emits now data d k frame :
  rx_result (datagram_received now data d) = Return (Some (k, frame)) →
  (8 ≤ length data)%nat ∧ k = frame_counter_of data.
Proof.
  unfold datagram_received. case_bool_decide as Hlen; [done|].
  case_bool_decide; [done|]. intros [-> _]%reassemble_emits.
  split; [lia|done].
Qed.

(** The entry of [k] and the frames handed over under [k] are those of the
    arrivals that carry [k], from any table with the same entry for [k]. *)
Lemma deliver_projection k arrivals : ∀ d1 d2,
  d1 !! k = d2 !! k →
  (deliver arrivals d1).1.1 !! k = (deliver (arrivals_of k arrivals) d2).1.1 !! k
  ∧ frames_of k (deliver arrivals d1).1.2 =
      (deliver (arrivals_of k arrivals) d2).1.2.
Proof.
  induction arrivals as [|[now data] rest IH]; intros d1 d2 Heq; [done|].
  unfold arrivals_of.
  destruct (decide ((8 ≤ length data)%nat ∧ frame_counter_of data = k))
    as [[Hlen <-]|Hother].
  - rewrite filter_cons_True by done. fold (arrivals_of (frame_counter_of data) rest).
    rewrite !deliver_cons. cbv zeta. cbn [fst snd].
    destruct (datagram_received_local now data d1 d2 Heq) as [Hres Hent].
    destruct (IH _ _ Hent) as [IHd IHf]. split; [done|].
    rewrite <- Hres.
    destruct (rx_result (datagram_received now data d1)) as [[[k' frame]|]|e] eqn:Hr;
      [|done..].
    apply datagram_received_emits in Hr as [_ ->].
    unfold frames_of. rewrite filter_cons_True by done.
    fold (frames_of (frame_counter_of data) (deliver rest
            (rx_dict (datagram_received now data d1))).1.2).
    by rewrite IHf.
  - rewrite filter_cons_False by done. fold (arrivals_of k rest).
    rewrite deliver_cons. cbv zeta. cbn [fst snd].
    assert (rx_dict (datagram_received now data d1) !! k = d2 !! k) as Hent.
    { rewrite <- Heq. unfold datagram_received.
      case_bool_decide as Hlen; [done|]. case_bool_decide; [done|].
      apply reassemble_other. intros ->. apply Hother. split; [lia|done]. }
    destruct (IH _ _ Hent) as [IHd IHf]. split; [done|].
    destruct (rx_result (datagram_received now data d1)) as [[[k' frame]|]|e] eqn:Hr;
      [|done..].
    apply datagram_received_emits in Hr as [Hlen ->].
    unfold frames_of. rewrite filter_cons_False by (cbn; intros <-; auto).
    exact IHf.
Qed.

(** X19.  Frames are reassembled independently of one another.  Whatever
    arrives, in whatever order: the entry the table ends up with for a frame
    counter, and the frames handed over under that frame counter, are the
    ones that the arrivals carrying that frame counter would have produced
    had they come alone. *)
Theorem X19_frames_do_not_interfere k arrivals d :
  (deliver arrivals d).1.1 !! k = (deliver (arrivals_of k arrivals) d).1.1 !! k
  ∧ frames_of k (deliver arrivals d).1.2 =
      (deliver (arrivals_of k arrivals) d).1.2.
Proof. by apply deliver_projection. Qed.

(** The datagrams of one frame, each once, in any order, on their own. *)
Lemma deliver_sent_alone file_data fc chunk_size total arrivals d :
  0 ≤ fc < 2 ^ 32 → 0 < total < 65536 →
  concat (chunk_of file_data chunk_size <$> range total) = file_data →
  d !! fc = None →
  arrivals.*2 ≡ₚ fragment file_data fc chunk_size total <$> range total →
  deliver arrivals d = (d, [(fc, file_data)], []).
Proof.
  intros Hfc Htot Hconcat Hd Hperm.
  apply Permutation_fmap_inv in Hperm as (idxs & Harr & Hidxs).
  destruct arrivals as [|[now data] rest].
  { symmetry in Harr. apply fmap_nil_inv in Harr as ->.
    apply Permutation_length in Hidxs. rewrite length_range in Hidxs.
    cbn in Hidxs. lia. }
  destruct idxs as [|i idxs]; [done|].
  assert (0 ≤ i < total) as Hi.
  { apply elem_of_range. rewrite Hidxs. apply list_elem_of_here. }
  assert (data = fragment file_data fc chunk_size total i) as ->
    by (by injection Harr).
  rewrite (deliver_from_absent file_data fc chunk_size total Hfc Htot
             now i rest d now) by done.
  apply (deliver_collecting file_data fc chunk_size total Hfc Htot Hconcat
           (i :: idxs) _ []); [done | by symmetry | done | apply collected_empty | done].
Qed.

(** X20.  The round trip holds in the middle of other traffic.  After a
    call of [send_file] that returned and sent at least one datagram, on a
    receiver with no entry for its frame counter: whatever else arrives in
    between (datagrams of other frames, datagrams too short to be read),
    when the arrivals that carry the frame counter of the call are the
    datagrams of the call, each once, in any order, exactly one frame is
    handed over under that frame counter, with the bytes of the file, and
    no entry is left for it. *)
Theorem X20_round_trip_among_other_traffic fs filepath file_data fc chunk_size
    fps next arrivals d :
  fs !! filepath = Some file_data →
  tx_result (send_file fs filepath fc chunk_size fps) = Return next →
  tx_sent (send_file fs filepath fc chunk_size fps) ≠ [] →
  d !! fc = None →
  (arrivals_of fc arrivals).*2 ≡ₚ tx_sent (send_file fs filepath fc chunk_size fps) →
  frames_of fc (deliver arrivals d).1.2 = [(fc, file_data)]
  ∧ (deliver arrivals d).1.1 !! fc = None.
Proof.
  intros Hfs Hret Hsome Hd Hperm.
  destruct (send_file_sent_fragments _ _ _ _ _ _ _ Hfs Hret)
    as (Hfc & Htot & Hsent & Hconcat).
  rewrite Hsent in Hperm, Hsome.
  set (total := - (- Z.of_nat (length file_data) / chunk_size)) in *.
  assert (0 < total) as Hpos.
  { destruct (decide (0 < total)) as [|Hz]; [done|].
    exfalso. apply Hsome. unfold range.
    replace (Z.to_nat total) with 0%nat by lia. done. }
  destruct (deliver_projection fc arrivals d d eq_refl) as [-> ->].
  rewrite (deliver_sent_alone file_data fc chunk_size total
             (arrivals_of fc arrivals) d) by (done || lia || auto).
  done.
Qed.

Lemma X20_round_trip_among_other_traffic_witness :
  let arrivals :=
    [(10, header 7 3 2 ++ [x05]); (11, header 9 2 0 ++ [x61]);
     (12, [x00; x01]); (13, header 7 3 0 ++ [x01; x02]);
     (14, header 7 3 1 ++ [x03; x04])] in
  frames_of 7 (deliver arrivals ∅).1.2 = [(7, [x01; x02; x03; x04; x05])]
  ∧ (deliver arrivals ∅).1.1 !! 7 = None.
Proof.
  cbv zeta.
  refine (X20_round_trip_among_other_traffic
            {[ "a.ply" := [x01; x02; x03; x04; x05] ]} "a.ply"
            [x01; x02; x03; x04; x05] 7 2 30 8 _ ∅ eq_refl eq_refl _ eq_refl _).
  - discriminate.
  - exact (Permutation_cons_append
             [header 7 3 0 ++ [x01; x02]; header 7 3 1 ++ [x03; x04]]
             (header 7 3 2 ++ [x05])).
Defined.

(** ** The files of completed frames *)

(** Two strings that agree up to and after the first [c] agree in both
    parts. *)
Lemma app_split c a a' r r' :
  ¬ has_char c a → ¬ has_char c a' →
  a +:+ String c r = a' +:+ String c r' → a = a' ∧ r = r'.
Proof.
  revert a'. induction a as [|x a IH]; intros [|x' a'] Ha Ha' Heq; cbn in *.
  - by injection Heq as ->.
  - injection Heq as <- _. tauto.
  - injection Heq as -> _. tauto.
  - injection Heq as -> Heq. destruct (IH a') as [-> ->]; tauto.
Qed.

Lemma pretty_N_go_chars c x s :
  has_char c (pretty_N_go x s) → decimal_char c ∨ has_char c s.
Proof.
  revert s. induction (N.lt_wf_0 x) as [x _ IH]; intros s.
  assert (x = 0 ∨ 0 < x)%N as [->|Hpos] by lia.
  - rewrite pretty_N_go_0. tauto.
  - rewrite pretty_N_go_step by done.
    intros [Hd|[<-|Hs]]%IH; [tauto| |tauto|by apply N.div_lt].
    left. unfold decimal_char, pretty_N_char.
    repeat case_match; set_solver.
Qed.

Lemma pretty_Z_chars c (z : Z) : has_char c (pretty z) → decimal_char c.
Proof.
  assert (∀ p : positive, has_char c (pretty p) → decimal_char c) as Hpos.
  { intros p. unfold pretty, pretty_positive, pretty, pretty_N.
    rewrite decide_False by done.
    intros [Hd|[]]%pretty_N_go_chars. done. }
  unfold pretty at 1, pretty_Z. destruct z as [|p|p].
  - cbn. intros [<-|[]]. unfold decimal_char. set_solver.
  - exact (Hpos p).
  - cbn [String.append has_char]. intros [<-|Hp]; [|by apply (Hpos p)].
    unfold decimal_char. set_solver.
Qed.

Lemma pretty_Z_free c (z : Z) : ¬ decimal_char c → ¬ has_char c (pretty z).
Proof. intros Hc Hz. by apply Hc, (pretty_Z_chars c z). Qed.

Lemma path_join_frame_inj save_folder name1 name2 :
  path_join save_folder ("frame_" +:+ name1) =
    path_join save_folder ("frame_" +:+ name2) →
  name1 = name2.
Proof.
  unfold path_join. cbn [String.append].
  destruct (bool_decide (save_folder = "") || ends_with "/" save_folder).
  - intros Heq%(inj (String.append save_folder)). by simplify_eq.
  - intros Heq%(inj (String.append save_folder)). by simplify_eq.
Qed.

(** X21.  Two completed frames are written to the same path exactly when
    they have the same frame counter and their tasks run in the same
    second.  So the files of frames with different frame counters, or saved
    in different seconds, never replace one another; a frame saved again
    under the same counter within the same second replaces the earlier
    file. *)
Theorem X21_save_path_identifies_counter_and_second save_folder can_open
    fc1 t1 data1 fc2 t2 data2 files :
  (save_path save_folder fc1 t1 = save_path save_folder fc2 t2 ↔
     fc1 = fc2 ∧ t1 = t2)
  ∧ (can_open (save_path save_folder fc1 t1) = true →
     can_open (save_path save_folder fc2 t2) = true →
     let files1 := (save_frame save_folder can_open t1 fc1 data1 files).1 in
     let files2 := (save_frame save_folder can_open t2 fc2 data2 files1).1 in
     files2 !! save_path save_folder fc2 t2 = Some data2
     ∧ files2 !! save_path save_folder fc1 t1 =
         Some (if bool_decide (fc1 = fc2 ∧ t1 = t2) then data2 else data1)).
Proof.
  assert (save_path save_folder fc1 t1 = save_path save_folder fc2 t2 ↔
            fc1 = fc2 ∧ t1 = t2) as Hinj.
  { split; [|by intros [-> ->]].
    unfold save_path. intros Heq%path_join_frame_inj.
    change (pretty fc1 +:+ String "_" (pretty t1 +:+ ".ply") =
            pretty fc2 +:+ String "_" (pretty t2 +:+ ".ply")) in Heq.
    apply app_split in Heq as [Hfc Ht];
      [|apply pretty_Z_free; unfold decimal_char; set_solver..].
    change (pretty t1 +:+ String "." "ply" = pretty t2 +:+ String "." "ply") in Ht.
    apply app_split in Ht as [Ht _];
      [|apply pretty_Z_free; unfold decimal_char; set_solver..].
    split; by apply (inj pretty). }
  split; [done|]. intros Hopen1 Hopen2. cbv zeta. unfold save_frame.
  rewrite Hopen1, Hopen2. cbn [fst]. split; [apply lookup_insert_eq|].
  case_bool_decide as Hsame.
  - destruct Hsame as [-> ->]. apply lookup_insert_eq.
  - rewrite lookup_insert_ne; [apply lookup_insert_eq|].
    intros Heq. apply Hsame, Hinj. done.
Qed.

Lemma X21_save_path_identifies_counter_and_second_witness :
  save_path "received_folder" 7 1700000000 = "received_folder/frame_7_1700000000.ply"
  ∧ (save_frame "received_folder" (λ _, true) 1700000001 7 [x02]
       (save_frame "received_folder" (λ _, true) 1700000000 7 [x01] ∅).1).1
      !! "received_folder/frame_7_1700000000.ply" = Some [x01].
Proof.
  split; [reflexivity|].
  exact (proj2 (proj2 (X21_save_path_identifies_counter_and_second
           "received_folder" (λ _, true) 7 1700000000 [x01] 7 1700000001 [x02] ∅)
           eq_refl eq_refl)).
Defined.
